(** * ax: agent composition, schema projection and the generation loop

    A shallow embedding of
    - the agent module ([processChildAgentFunction], [AxAgent]'s
      constructor, [toCamelCase], [addModelParameter],
      [removePropertiesFromSchema], [pick]), and
    - [src/text/text.ts] ([AIPrompt] and its generation loop),
    together with the properties the specification states about them.

    JavaScript objects whose identity matters (schema objects, callable
    descriptions, configuration objects, function arrays) live in a store
    indexed by locations; code that mutates them is written as store
    updates, code that throws returns [Thrown].  Strings are sequences of
    8-bit code units; [String.length] stands for JavaScript's [.length]. *)

From stdpp Require Import gmap strings list fin_maps.
From Stdlib Require Import Ascii DecimalString.

#[local] Set Warnings "-register-all".
#[local] Set Default Proof Using "Type".
#[local] Open Scope string_scope.

(** ** Exceptions and state *)

Inductive outcome (A : Type) : Type :=
  | Ok (a : A)
  | Thrown (message : string).
Arguments Ok {A} a.
Arguments Thrown {A} message.

(** A computation over a state [S] that either returns or throws; a throw
    keeps the state reached so far (JavaScript does not roll back). *)
Definition M (S A : Type) : Type := S → outcome A * S.

#[export] Instance M_ret {S} : MRet (M S) := λ A a s, (Ok a, s).
#[export] Instance M_bind {S} : MBind (M S) := λ A B f m s,
  match m s with
  | (Ok a, s') => f a s'
  | (Thrown e, s') => (Thrown e, s')
  end.

Definition throw {S A} (message : string) : M S A := λ s, (Thrown message, s).
Definition get {S} : M S S := λ s, (Ok s, s).
Definition modify {S} (f : S → S) : M S unit := λ s, (Ok tt, f s).

(** [for (const x of xs) body(x)] *)
Fixpoint for_of {S A} (xs : list A) (body : A → M S unit) : M S unit :=
  match xs with
  | [] => mret tt
  | x :: rest => body x ;; for_of rest body
  end.

(** Object references. *)
Abbreviation loc := positive.

(** [xs.join(sep)] *)
Fixpoint join (sep : string) (xs : list string) : string :=
  match xs with
  | [] => EmptyString
  | [x] => x
  | x :: rest => x +:+ sep +:+ join sep rest
  end.

(** ASCII classification used by [/[^a-zA-Z0-9]/], [toLowerCase] and
    [toUpperCase] on the characters that survive that split. *)
Definition is_upper (c : ascii) : bool :=
  let n := nat_of_ascii c in ((65 <=? n) && (n <=? 90))%nat.
Definition is_lower (c : ascii) : bool :=
  let n := nat_of_ascii c in ((97 <=? n) && (n <=? 122))%nat.
Definition is_digit (c : ascii) : bool :=
  let n := nat_of_ascii c in ((48 <=? n) && (n <=? 57))%nat.
Definition is_alnum (c : ascii) : bool := is_upper c || is_lower c || is_digit c.
Definition to_lower (c : ascii) : ascii :=
  if is_upper c then ascii_of_nat (nat_of_ascii c + 32) else c.
Definition to_upper (c : ascii) : ascii :=
  if is_lower c then ascii_of_nat (nat_of_ascii c - 32) else c.

Fixpoint string_map (f : ascii → ascii) (s : string) : string :=
  match s with
  | EmptyString => EmptyString
  | String c rest => String (f c) (string_map f rest)
  end.

(** [s.split(/[^a-zA-Z0-9]/)]: every non-alphanumeric character is a
    separator, empty words are kept. *)
Fixpoint split_non_alnum (s : string) : list string :=
  match s with
  | EmptyString => [EmptyString]
  | String c rest =>
      if is_alnum c then
        match split_non_alnum rest with
        | w :: ws => String c w :: ws
        | [] => [String c EmptyString]
        end
      else EmptyString :: split_non_alnum rest
  end.

Fixpoint mapi_from {A B} (i : nat) (f : A → nat → B) (xs : list A) : list B :=
  match xs with
  | [] => []
  | x :: rest => f x i :: mapi_from (S i) f rest
  end.


(** ** Running a bind *)

Lemma bind_ok {S A B} (m : M S A) (f : A → M S B) (s : S) (a : A) (s' : S) :
  m s = (Ok a, s') → (m ≫= f) s = f a s'.
Proof. intros H. unfold mbind, M_bind. by rewrite H. Qed.

Lemma bind_thrown {S A B} (m : M S A) (f : A → M S B) (s : S) (e : string) (s' : S) :
  m s = (Thrown e, s') → (m ≫= f) s = (Thrown e, s').
Proof. intros H. unfold mbind, M_bind. by rewrite H. Qed.



(** Unfolds the monad down to the state it is run on. *)
Ltac run := repeat (progress (simpl; unfold mbind, M_bind, mret, M_ret, throw, modify)); simpl.

(** [tauto] on the propositions of the goal only: it would otherwise take
    the functions in the context for implications. *)
Ltac propositional :=
  repeat match goal with
         | f : ?A → _ |- _ =>
             lazymatch type of A with Prop => fail | _ => clear f end
         end;
  tauto.
Module Agent.

(** *** Data *)

(** [AxFunctionJSONSchema]: the declaration is outside the sources at hand;
    the fields are the ones the code reads and writes.  Nested property
    schemas are held by value, so cloning a cell is a deep copy. *)
Inductive AxFunctionJSONSchema : Type := JSONSchema {
  type : string;
  properties : option (gmap string AxFunctionJSONSchema);
  required : option (list string);
  enum : option (list string);
  description : option string;
}.

(** An entry of [AxAIModelList]. *)
Record AxAIModel : Type := {
  key : string;
  model : string;
  model_description : string;
}.

Record AxAgentFeatures : Type := {
  canConfigureSmartModelRouting : bool;
  excludeFieldsFromPassthrough : list string;
}.

(** The [options] argument of [processChildAgentFunction]. *)
Record ProcessOptions : Type := {
  debug : bool;
  opt_disableSmartModelRouting : bool;
  opt_excludeFieldsFromPassthrough : list string;
  opt_canConfigureSmartModelRouting : bool;
}.

(** [AxAgentOptions], as far as the agent reads it. *)
Record AxAgentOptions : Type := {
  disableSmartModelRouting : option bool;
  agent_excludeFieldsFromPassthrough : option (list string);
}.

Section Model.

(** [V]: JavaScript values held in argument objects; [R]: what a callable
    returns; [FuncOptions]: the second argument of a callable. *)
Context {V R FuncOptions : Type}.

(** An argument object, by own property. *)
Abbreviation Args := (gmap string V).

(** [AxFunction].  [parameters] is a reference to a schema object.  A call
    yields what it wrote to [process.stdout] and its result. *)
Record AxFunction : Type := {
  name : string;
  func_description : string;
  parameters : option loc;
  func : Args → FuncOptions → list string * R;
}.

Record store : Type := {
  schemas : gmap loc AxFunctionJSONSchema;
  functions : gmap loc AxFunction;
}.

Abbreviation Op := (M store).

(** *** Store primitives *)

Definition allocSchema (s : AxFunctionJSONSchema) : Op loc := λ st,
  let l := fresh (dom (schemas st)) in
  (Ok l, {| schemas := <[l := s]> (schemas st); functions := functions st |}).

Definition readSchema (l : loc) : Op AxFunctionJSONSchema := λ st,
  match schemas st !! l with
  | Some s => (Ok s, st)
  | None => (Thrown "dangling schema reference", st)
  end.

Definition updateSchema (l : loc) (f : AxFunctionJSONSchema → AxFunctionJSONSchema) : Op unit :=
  modify (λ st, {| schemas := alter f l (schemas st); functions := functions st |}).

Definition allocFunction (f : AxFunction) : Op loc := λ st,
  let l := fresh (dom (functions st)) in
  (Ok l, {| schemas := schemas st; functions := <[l := f]> (functions st) |}).

Definition readFunction (l : loc) : Op AxFunction := λ st,
  match functions st !! l with
  | Some f => (Ok f, st)
  | None => (Thrown "dangling function reference", st)
  end.

Definition updateFunction (l : loc) (f : AxFunction → AxFunction) : Op unit :=
  modify (λ st, {| schemas := schemas st; functions := alter f l (functions st) |}).

(** [structuredClone(schema)] *)
Definition structuredClone (l : loc) : Op loc :=
  s ← readSchema l; allocSchema s.

(** *** Schema projection *)

(** [delete newSchema.properties[key]] *)
Definition deleteProperty (key : string) (s : AxFunctionJSONSchema) : AxFunctionJSONSchema :=
  {| type := type s;
     properties := delete key <$> properties s;
     required := required s;
     enum := enum s;
     description := description s |}.

(** [Object.defineProperty(newSchema, 'required', { value, ... })] *)
Definition defineRequired (value : list string) (s : AxFunctionJSONSchema) : AxFunctionJSONSchema :=
  {| type := type s;
     properties := properties s;
     required := Some value;
     enum := enum s;
     description := description s |}.

Definition removePropertiesFromSchema (schema : loc) (keys : list string) : Op loc :=
  newSchema ← structuredClone schema;
  s ← readSchema newSchema;
  (match properties s with
   | Some _ => for_of keys (λ key, updateSchema newSchema (deleteProperty key))
   | None => mret tt
   end) ;;
  s ← readSchema newSchema;
  (match required s with
   | Some req =>
       let filteredRequired := filter (λ r, r ∉ keys) req in
       updateSchema newSchema (defineRequired filteredRequired)
   | None => mret tt
   end) ;;
  mret newSchema.

Definition modelDescription (models : list AxAIModel) : string :=
  "The AI model to use for this function call. Available options: " +:+
  join ", " (map (λ m, "`" +:+ key m +:+ "` " +:+ model_description m) models).

(** The schema [addModelParameter] starts from when [parameters] is
    absent. *)
Definition emptyObjectSchema : AxFunctionJSONSchema :=
  {| type := "object"; properties := Some ∅; required := Some [];
     enum := None; description := None |}.

(** [modelProperty] *)
Definition modelProperty (models : list AxAIModel) : AxFunctionJSONSchema :=
  {| type := "string"; properties := None; required := None;
     enum := Some (map key models);
     description := Some (modelDescription models) |}.

(** [baseSchema.properties?.model]: a property, when present, is a schema
    object and so truthy. *)
Definition addModelParameter (parameters : option loc) (models : list AxAIModel) : Op loc :=
  baseSchema ← match parameters with
               | Some p => structuredClone p
               | None => allocSchema emptyObjectSchema
               end;
  base ← readSchema baseSchema;
  if bool_decide (is_Some (properties base ≫= (.!! "model"))) then
    mret baseSchema
  else
    let newProperties := <["model" := modelProperty models]> (default ∅ (properties base)) in
    let newRequired := (default [] (required base) ++ ["model"])%list in
    allocSchema {| type := type base; properties := Some newProperties;
                   required := Some newRequired; enum := enum base;
                   description := description base |}.

(** *** Passthrough *)

(** [pick(obj, keys)]; [key in obj] is read as "is an own property". *)
Definition pick (obj : Args) (keys : list string) : Args :=
  foldl (λ result key,
           match obj !! key with
           | Some v => <[key := v]> result
           | None => result
           end) ∅ keys.

(** [{ ...childArgs, ...pick(parentValues, injectionKeys) }] *)
Definition updatedChildArgs (parentValues : Args) (injectionKeys : list string)
    (childArgs : Args) : Args :=
  pick parentValues injectionKeys ∪ childArgs.

Context (stringify : Args → string).

Definition commonKeys (parentInputKeys : list string) (childKeys : gset string) : list string :=
  filter (λ key, key ≠ "model") (filter (λ key, key ∈ childKeys) parentInputKeys).

Definition injectionKeys (parentInputKeys : list string) (childKeys : gset string)
    (exclusions : list string) : list string :=
  filter (λ key, key ∉ exclusions) (commonKeys parentInputKeys childKeys).

Definition setParameters (p : option loc) (f : AxFunction) : AxFunction :=
  {| name := name f; func_description := func_description f;
     parameters := p; func := func f |}.

Definition setFunc (g : Args → FuncOptions → list string * R) (f : AxFunction) : AxFunction :=
  {| name := name f; func_description := func_description f;
     parameters := parameters f; func := g |}.

(** The closure assigned to [processedFunction.func]. *)
Definition injectingFunc (debug : bool) (parentValues : Args) (keys : list string)
    (originalFunc : Args → FuncOptions → list string * R)
    : Args → FuncOptions → list string * R :=
  λ childArgs funcOptions,
    let updated := updatedChildArgs parentValues keys childArgs in
    let written :=
      if debug && (0 <? length keys)%nat
      then ["Function Params: " +:+ stringify updated] else [] in
    let '(out, r) := originalFunc updated funcOptions in
    ((written ++ out)%list, r).

Definition processChildAgentFunction (childFunction : loc) (parentValues : Args)
    (parentInputKeys : list string) (modelList : option (list AxAIModel))
    (options : ProcessOptions) : Op loc :=
  child ← readFunction childFunction;
  processedFunction ← allocFunction child;
  current ← readFunction processedFunction;
  match parameters current with
  | Some params =>
      ps ← readSchema params;
      let childKeys : gset string :=
        match properties ps with Some props => dom props | None => ∅ end in
      let keys := injectionKeys parentInputKeys childKeys
                    (opt_excludeFieldsFromPassthrough options) in
      (if (0 <? length keys)%nat then
         projected ← removePropertiesFromSchema params keys;
         updateFunction processedFunction (setParameters (Some projected)) ;;
         current ← readFunction processedFunction;
         let originalFunc := func current in
         updateFunction processedFunction
           (setFunc (injectingFunc (debug options) parentValues keys originalFunc))
       else mret tt) ;;
      mret processedFunction
  | None =>
      (match modelList with
       | Some models =>
           if negb (opt_disableSmartModelRouting options)
              && opt_canConfigureSmartModelRouting options
           then
             current ← readFunction processedFunction;
             withModel ← addModelParameter (parameters current) models;
             updateFunction processedFunction (setParameters (Some withModel))
           else mret tt
       | None => mret tt
       end) ;;
      mret processedFunction
  end.

(** *** The agent *)

Definition toCamelCase (inputString : string) : string :=
  let words := split_non_alnum inputString in
  let camelCaseString :=
    join EmptyString (mapi_from 0 (λ word index,
      let lowerWord := string_map to_lower word in
      match lowerWord with
      | String c rest =>
          if (0 <? index)%nat then String (to_upper c) rest else lowerWord
      | EmptyString => lowerWord
      end) words) in
  camelCaseString.

(** What the constructor consumes from outside this file: the signature
    class, the generator it wraps and the AI service. *)
Context {AIService AxSignature SignatureSource AxGen : Type}.
Context (newAxSignature : SignatureSource → outcome AxSignature)
        (setDescription : string → AxSignature → AxSignature)
        (toJSONSchema : AxSignature → AxFunctionJSONSchema)
        (getModelList : AIService → option (list AxAIModel))
        (forward : R).

(** [AxAgentic]: a child exposes a callable description, a fresh object
    on every [getFunction()], and its features. *)
Record AxAgentic : Type := {
  agentic_function : AxFunction;
  getFeatures : AxAgentFeatures;
}.

Definition getFunction (a : AxAgentic) : Op loc := allocFunction (agentic_function a).

Context (newAxGen : AxSignature → option AxAgentOptions → AxGen)
        (register : AxAgentic → AxGen → AxGen).

(** First argument of the constructor. *)
Record AxAgentArgs : Type := {
  arg_ai : option AIService;
  arg_name : string;
  arg_description : string;
  arg_signature : SignatureSource;
  arg_agents : option (list AxAgentic);
  arg_functions : option (list loc);
}.

Record AxAgent : Type := {
  agent_ai : option AIService;
  agent_signature : AxSignature;
  agent_program : AxGen;
  agent_functions : option (list loc);
  agent_agents : option (list AxAgentic);
  agent_disableSmartModelRouting : option bool;
  agent_excluded : list string;
  agent_name : string;
  agent_description : string;
  agent_subAgentList : option string;
  agent_func : loc;
}.

Definition nameError (name : string) : string :=
  "Agent name must be at least 10 characters (more descriptive): " +:+ name.

Definition descriptionError (description : string) : string :=
  "Agent description must be at least 20 characters (explain in detail what the agent does): "
  +:+ description.

Definition liftOutcome {A} (o : outcome A) : Op A := λ st, (o, st).

Definition newAxAgent (args : AxAgentArgs) (options : option AxAgentOptions) : Op AxAgent :=
  let ai := arg_ai args in
  let agents := arg_agents args in
  let disable := options ≫= disableSmartModelRouting in
  let excluded := default [] (options ≫= agent_excludeFieldsFromPassthrough) in
  signature ← liftOutcome (newAxSignature (arg_signature args));
  let signature := setDescription (arg_description args) signature in
  (if bool_decide (arg_name args = EmptyString) || (String.length (arg_name args) <? 5)%nat
   then throw (nameError (arg_name args)) else mret tt) ;;
  (if bool_decide (arg_description args = EmptyString)
      || (String.length (arg_description args) <? 20)%nat
   then throw (descriptionError (arg_description args)) else mret tt) ;;
  let program := foldl (λ prog agent, register agent prog)
                   (newAxGen signature options) (default [] agents) in
  subAgentList ← match agents with
                 | Some children =>
                     names ← mapM (λ a, f ← getFunction a;
                                        d ← readFunction f; mret (name d)) children;
                     mret (Some (join ", " names))
                 | None => mret None
                 end;
  params ← allocSchema (toJSONSchema signature);
  func ← allocFunction {| name := toCamelCase (arg_name args);
                          func_description := arg_description args;
                          parameters := Some params;
                          func := λ _ _, ([], forward) |};
  (match ai ≫= getModelList with
   | Some mm =>
       if negb (default false disable) then
         current ← readFunction func;
         withModel ← addModelParameter (parameters current) mm;
         updateFunction func (setParameters (Some withModel))
       else mret tt
   | None => mret tt
   end) ;;
  mret {| agent_ai := ai; agent_signature := signature; agent_program := program;
          agent_functions := arg_functions args; agent_agents := agents;
          agent_disableSmartModelRouting := disable; agent_excluded := excluded;
          agent_name := arg_name args; agent_description := arg_description args;
          agent_subAgentList := subAgentList; agent_func := func |}.


(** *** Methods of the agent *)

Definition setDescriptionError : string :=
  "Agent description must be at least 20 characters (explain in detail what the agent does)".

(** [setDescription(description)]: after the check, [this.description],
    the signature and [this.func.description] are written, the last one
    in place on the callable object. *)
Definition AxAgent_setDescription (description : string) (self : AxAgent) : Op AxAgent :=
  (if bool_decide (description = EmptyString) || (String.length description <? 20)%nat
   then throw setDescriptionError else mret tt) ;;
  updateFunction (agent_func self)
    (λ f, {| name := name f; func_description := description;
             parameters := parameters f; func := func f |}) ;;
  mret {| agent_ai := agent_ai self;
          agent_signature := setDescription description (agent_signature self);
          agent_program := agent_program self;
          agent_functions := agent_functions self;
          agent_agents := agent_agents self;
          agent_disableSmartModelRouting := agent_disableSmartModelRouting self;
          agent_excluded := agent_excluded self;
          agent_name := agent_name self;
          agent_description := description;
          agent_subAgentList := agent_subAgentList self;
          agent_func := agent_func self |}.

(** [getFeatures()] of an agent. *)
Definition AxAgent_getFeatures (self : AxAgent) : AxAgentFeatures :=
  {| canConfigureSmartModelRouting :=
       match agent_ai self with None => true | Some _ => false end;
     excludeFieldsFromPassthrough := agent_excluded self |}.

(** What [init] reads from outside this file: the names of the
    signature's input fields ([getInputFields().map((p) => p.name)]) and
    the service's debug option ([getOptions()?.debug]). *)
Context (inputFieldNames : AxSignature → list string)
        (debugOption : AIService → option bool).

(** [init(parentAi, values, options)]; of [options] only
    [options?.functions] is read. *)
Definition init (self : AxAgent) (parentAi : AIService) (values : Args)
    (optionsFunctions : option (list loc)) : Op (AIService * list loc) :=
  let ai := default parentAi (agent_ai self) in
  let mm := getModelList ai in
  let parentKeys := inputFieldNames (agent_signature self) in
  agentFuncs ← match agent_agents self with
               | Some agents =>
                   fs ← mapM (λ agent,
                     let f := getFeatures agent in
                     let processOptions :=
                       {| debug := default false (debugOption ai);
                          opt_disableSmartModelRouting :=
                            default false (agent_disableSmartModelRouting self);
                          opt_excludeFieldsFromPassthrough :=
                            excludeFieldsFromPassthrough f;
                          opt_canConfigureSmartModelRouting :=
                            canConfigureSmartModelRouting f |} in
                     childFunction ← getFunction agent;
                     processChildAgentFunction childFunction values parentKeys mm
                       processOptions) agents;
                   mret (Some fs)
               | None => mret None
               end;
  let functions :=
    (default (default [] (agent_functions self)) optionsFunctions
     ++ default [] agentFuncs)%list in
  mret (ai, functions).

(** *** Notions used in the statements *)

(** What [removePropertiesFromSchema] leaves in the copy. *)
Definition projected (keys : list string) (s : AxFunctionJSONSchema) : AxFunctionJSONSchema :=
  {| type := type s;
     properties := (λ p, foldl (λ p k, delete k p) p keys) <$> properties s;
     required := filter (λ r, r ∉ keys) <$> required s;
     enum := enum s;
     description := description s |}.

(** The shape [addModelParameter] is given: the referenced object, or the
    empty object schema. *)
Definition inputShape (st : store) (parameters : option loc) : option AxFunctionJSONSchema :=
  match parameters with
  | Some p => schemas st !! p
  | None => Some emptyObjectSchema
  end.

(** The object [addModelParameter] returns for a shape without [model]. *)
Definition withModel (models : list AxAIModel) (base : AxFunctionJSONSchema) : AxFunctionJSONSchema :=
  {| type := type base;
     properties := Some (<["model" := modelProperty models]> (default ∅ (properties base)));
     required := Some (default [] (required base) ++ ["model"])%list;
     enum := enum base;
     description := description base |}.

(** The shape has a [model] property. *)
Definition hasModel (s : AxFunctionJSONSchema) : Prop :=
  is_Some (properties s ≫= (.!! "model")).

(** The store with one more schema object. *)
Definition withSchema (l : loc) (s : AxFunctionJSONSchema) (st : store) : store :=
  {| schemas := <[l := s]> (schemas st); functions := functions st |}.

(** Every required name is a property of the shape. *)
Definition requiredWithinProperties (s : AxFunctionJSONSchema) : Prop :=
  ∀ r, r ∈ default [] (required s) → is_Some (properties s ≫= (.!! r)).

(** The property names of a shape: [Object.keys(parameters.properties)],
    or none when [properties] is absent. *)
Definition childKeysOf (ps : AxFunctionJSONSchema) : gset string :=
  match properties ps with Some props => dom props | None => ∅ end.

(** The callable description the adapter builds for a child that has a
    parameter schema. *)
Definition adapted (child : AxFunction) (projectedParams : loc) (debug : bool)
    (parentValues : Args) (keys : list string) : AxFunction :=
  {| name := name child; func_description := func_description child;
     parameters := Some projectedParams;
     func := injectingFunc debug parentValues keys (func child) |}.

(** The name or the description is below its minimum length. *)
Definition tooShort (args : AxAgentArgs) : Prop :=
  (String.length (arg_name args) < 5)%nat ∨ (String.length (arg_description args) < 20)%nat.


(** Every character of the string passes the test. *)
Fixpoint string_forall (p : ascii → bool) (s : string) : bool :=
  match s with
  | EmptyString => true
  | String c rest => p c && string_forall p rest
  end.

(** The number of characters that pass the test. *)
Fixpoint string_count (p : ascii → bool) (s : string) : nat :=
  match s with
  | EmptyString => 0
  | String c rest => (if p c then 1 else 0) + string_count p rest
  end.

(** Every object of the first store is in the second, unchanged. *)
Definition extends (st st' : store) : Prop :=
  (∀ l x, schemas st !! l = Some x → schemas st' !! l = Some x)
  ∧ (∀ l x, functions st !! l = Some x → functions st' !! l = Some x).

(** The schema reference of a callable, if it has one, is live. *)
Definition liveParameters (st : store) (f : AxFunction) : Prop :=
  match parameters f with
  | Some p => is_Some (schemas st !! p)
  | None => True
  end.

(** *** Running the store primitives *)


Lemma fresh_schema_unused (st : store) : schemas st !! fresh (dom (schemas st)) = None.
Proof. apply not_elem_of_dom, is_fresh. Qed.

Lemma fresh_function_unused (st : store) : functions st !! fresh (dom (functions st)) = None.
Proof. apply not_elem_of_dom, is_fresh. Qed.

Lemma store_eq (st : store) sc fs :
  schemas st = sc → functions st = fs → st = {| schemas := sc; functions := fs |}.
Proof. destruct st; simpl; intros; subst; reflexivity. Qed.

(** The loop of deletions, as one update of the cell. *)
Lemma for_of_delete (l : loc) (keys : list string) (st : store) :
  for_of keys (λ key, updateSchema l (deleteProperty key)) st
  = (Ok tt, {| schemas := alter (λ s, foldl (λ s k, deleteProperty k s) s keys) l (schemas st);
               functions := functions st |}).
Proof.
  revert st. induction keys as [|k keys IH]; intros st; run.
  - f_equal. apply store_eq; [|reflexivity].
    symmetry. apply alter_id. reflexivity.
  - unfold updateSchema in *. run. rewrite IH. simpl.
    by rewrite alter_alter_eq.
Qed.

Lemma properties_foldl_delete (keys : list string) (s : AxFunctionJSONSchema) :
  properties (foldl (λ s k, deleteProperty k s) s keys)
  = (λ p, foldl (λ p k, delete k p) p keys) <$> properties s.
Proof.
  revert s. induction keys as [|k keys IH]; intros s; simpl.
  - destruct (properties s); reflexivity.
  - rewrite IH. simpl. destruct (properties s); reflexivity.
Qed.

Lemma rest_foldl_delete (keys : list string) (s : AxFunctionJSONSchema) :
  let s' := foldl (λ s k, deleteProperty k s) s keys in
  type s' = type s ∧ required s' = required s ∧ enum s' = enum s
  ∧ description s' = description s.
Proof.
  revert s. induction keys as [|k keys IH]; intros s; simpl; [done|].
  destruct (IH (deleteProperty k s)) as (-> & -> & -> & ->). done.
Qed.

Lemma lookup_foldl_delete {A} (keys : list string) (p : gmap string A) (k : string) :
  foldl (λ p k, delete k p) p keys !! k = if bool_decide (k ∈ keys) then None else p !! k.
Proof.
  revert p. induction keys as [|k' keys IH]; intros p; simpl.
  - reflexivity.
  - rewrite IH. destruct (decide (k = k')) as [->|Hne].
    + rewrite lookup_delete_eq. rewrite (bool_decide_eq_true_2 (k' ∈ k' :: keys)) by left.
      by case_bool_decide.
    + rewrite lookup_delete_ne by done.
      destruct (decide (k ∈ keys)) as [Hin|Hout].
      * rewrite !bool_decide_eq_true_2; [done| |done]. by right.
      * rewrite !bool_decide_eq_false_2; [done| |done].
        rewrite elem_of_cons. by intros [?|?].
Qed.

Lemma schema_eq (s1 s2 : AxFunctionJSONSchema) :
  type s1 = type s2 → properties s1 = properties s2 → required s1 = required s2 →
  enum s1 = enum s2 → description s1 = description s2 → s1 = s2.
Proof. destruct s1, s2; simpl; intros; subst; reflexivity. Qed.

Lemma removePropertiesFromSchema_run (st : store) (schema : loc)
    (s : AxFunctionJSONSchema) (keys : list string) :
  schemas st !! schema = Some s →
  removePropertiesFromSchema schema keys st
  = (Ok (fresh (dom (schemas st))),
     {| schemas := <[fresh (dom (schemas st)) := projected keys s]> (schemas st);
        functions := functions st |}).
Proof.
  intros Hs. unfold removePropertiesFromSchema, structuredClone, readSchema, allocSchema.
  run. rewrite Hs. simpl. rewrite lookup_insert_eq.
  pose proof (rest_foldl_delete keys s) as (Ht & Hr & He & Hd).
  pose proof (properties_foldl_delete keys s) as Hp.
  destruct (properties s) as [props|] eqn:Hprops.
  - rewrite for_of_delete. simpl. rewrite alter_insert_eq, lookup_insert_eq.
    rewrite Hr. destruct (required s) as [req|] eqn:Hreq; run.
    + rewrite alter_insert_eq. do 3 f_equal.
      apply schema_eq; simpl; rewrite ?Hprops, ?Hreq; auto.
    + do 3 f_equal. apply schema_eq; simpl; rewrite ?Hprops, ?Hreq; auto.
  - simpl. rewrite lookup_insert_eq.
    destruct (required s) as [req|] eqn:Hreq; run.
    + rewrite alter_insert_eq. do 3 f_equal.
      apply schema_eq; simpl; rewrite ?Hprops, ?Hreq; auto.
    + do 3 f_equal.
      apply schema_eq; simpl; rewrite ?Hprops, ?Hreq; auto.
Qed.


Lemma addModelParameter_run (st : store) (parameters : option loc)
    (s : AxFunctionJSONSchema) (models : list AxAIModel) :
  inputShape st parameters = Some s →
  let clone := fresh (dom (schemas st)) in
  let st1 := withSchema clone s st in
  addModelParameter parameters models st
  = if decide (hasModel s) then (Ok clone, st1)
    else (Ok (fresh (dom (schemas st1))),
          withSchema (fresh (dom (schemas st1))) (withModel models s) st1).
Proof.
  intros Hs clone st1.
  assert (Hbase :
    (match parameters with
     | Some p => structuredClone p
     | None => allocSchema emptyObjectSchema
     end) st = (Ok clone, st1)).
  { destruct parameters as [p|]; simpl in Hs.
    - unfold structuredClone, readSchema. run. rewrite Hs. reflexivity.
    - injection Hs as <-. reflexivity. }
  unfold addModelParameter. run. rewrite Hbase. unfold readSchema. simpl.
  rewrite lookup_insert_eq. unfold hasModel.
  destruct (decide (is_Some (properties s ≫= (.!! "model")))) as [Hm|Hm].
  - rewrite bool_decide_eq_true_2 by done. reflexivity.
  - rewrite bool_decide_eq_false_2 by done. reflexivity.
Qed.

Lemma hasModel_withModel (models : list AxAIModel) (s : AxFunctionJSONSchema) :
  hasModel (withModel models s).
Proof. unfold hasModel. simpl. rewrite lookup_insert_eq. eauto. Qed.

Lemma filter_all {A} (P : A → Prop) `{∀ x, Decision (P x)} (l : list A) :
  (∀ x, x ∈ l → P x) → filter P l = l.
Proof.
  induction l as [|x l IH]; intros Hall; [done|].
  rewrite filter_cons_True by (apply Hall; left).
  f_equal. apply IH. intros y Hy. apply Hall. by right.
Qed.

Lemma foldl_delete_absent {A} (keys : list string) (p : gmap string A) :
  (∀ k, k ∈ keys → p !! k = None) → foldl (λ p k, delete k p) p keys = p.
Proof.
  intros Habs. apply map_eq. intros k. rewrite lookup_foldl_delete.
  case_bool_decide as Hk; [|done]. symmetry. by apply Habs.
Qed.

Lemma projected_lookup (keys : list string) (s : AxFunctionJSONSchema) (k : string) :
  properties (projected keys s) ≫= (.!! k)
  = if bool_decide (k ∈ keys) then None else properties s ≫= (.!! k).
Proof.
  simpl. destruct (properties s) as [p|]; simpl.
  - apply lookup_foldl_delete.
  - by case_bool_decide.
Qed.

Lemma projected_absent (keys : list string) (s : AxFunctionJSONSchema) :
  (∀ k, k ∈ keys → properties s ≫= (.!! k) = None ∧ k ∉ default [] (required s)) →
  projected keys s = s.
Proof.
  intros Habs. apply schema_eq; simpl; try done.
  - destruct (properties s) as [p|] eqn:Hp; simpl; [|done].
    f_equal. apply foldl_delete_absent. intros k Hk. by destruct (Habs k Hk).
  - destruct (required s) as [req|] eqn:Hr; simpl; [|done].
    f_equal. apply filter_all. intros r Hr' Hin.
    destruct (Habs r Hin) as [_ Hnot]. by apply Hnot.
Qed.

(** C5. [removePropertiesFromSchema] never throws on a schema object; it
    returns a new object and leaves every existing one as it was; in the
    copy [required] is the original [required] without the listed keys
    (absent stays absent), no listed key is left in [properties], every
    other property and field is as in the original; when none of the
    listed keys occurs in the shape (in particular for the empty key
    list) the copy is structurally equal to the original. *)
Theorem removePropertiesFromSchema_copy (st : store) (schema : loc)
    (s : AxFunctionJSONSchema) (keys : list string) :
  schemas st !! schema = Some s →
  ∃ (newSchema : loc) (s' : AxFunctionJSONSchema),
    removePropertiesFromSchema schema keys st
      = (Ok newSchema, {| schemas := <[newSchema := s']> (schemas st);
                          functions := functions st |})
    ∧ schemas st !! newSchema = None
    ∧ newSchema ≠ schema
    ∧ required s' = filter (λ r, r ∉ keys) <$> required s
    ∧ (∀ k, k ∈ keys → properties s' ≫= (.!! k) = None)
    ∧ (∀ k, k ∉ keys → properties s' ≫= (.!! k) = properties s ≫= (.!! k))
    ∧ (is_Some (properties s') ↔ is_Some (properties s))
    ∧ type s' = type s ∧ enum s' = enum s ∧ description s' = description s
    ∧ ((∀ k, k ∈ keys →
          properties s ≫= (.!! k) = None ∧ k ∉ default [] (required s)) → s' = s)
    ∧ (keys = [] → s' = s).
Proof.
  intros Hs. exists (fresh (dom (schemas st))), (projected keys s).
  pose proof (fresh_schema_unused st) as Hfresh.
  split; [by apply removePropertiesFromSchema_run|].
  split; [done|].
  split; [congruence|].
  split; [done|].
  split.
  { intros k Hk. rewrite projected_lookup. by rewrite bool_decide_eq_true_2. }
  split.
  { intros k Hk. rewrite projected_lookup. by rewrite bool_decide_eq_false_2. }
  split.
  { simpl. rewrite fmap_is_Some. done. }
  do 3 (split; [done|]).
  split; [apply projected_absent|].
  intros ->. apply projected_absent. intros k Hk. by apply elem_of_nil in Hk.
Qed.

(** C6. [addModelParameter] is idempotent.  On a shape that already has
    a [model] property the result is a copy structurally equal to the
    shape; otherwise the result has the property [model], a string enum of
    the model keys in order, and [required] extended by [model], the
    other properties being kept.  Applying the function again to the
    result, with any model list, gives a shape structurally equal to the
    first result. *)
Theorem addModelParameter_idempotent (st : store) (parameters : option loc)
    (s : AxFunctionJSONSchema) (models : list AxAIModel) :
  inputShape st parameters = Some s →
  ∃ (once : loc) (st1 : store) (s1 : AxFunctionJSONSchema),
    addModelParameter parameters models st = (Ok once, st1)
    ∧ schemas st1 !! once = Some s1
    ∧ (hasModel s → s1 = s)
    ∧ (¬ hasModel s →
         properties s1 ≫= (.!! "model")
           = Some {| type := "string"; properties := None; required := None;
                     enum := Some (map key models);
                     description := Some (modelDescription models) |}
         ∧ required s1 = Some (default [] (required s) ++ ["model"])%list
         ∧ (∀ k, k ≠ "model" → properties s1 ≫= (.!! k) = properties s ≫= (.!! k))
         ∧ type s1 = type s ∧ enum s1 = enum s ∧ description s1 = description s)
    ∧ (∀ models' : list AxAIModel,
         ∃ (twice : loc) (st2 : store),
           addModelParameter (Some once) models' st1 = (Ok twice, st2)
           ∧ schemas st2 !! twice = Some s1).
Proof.
  intros Hs. rewrite (addModelParameter_run st parameters s models Hs).
  set (clone := fresh (dom (schemas st))).
  set (st1 := withSchema clone s st).
  assert (Hagain : ∀ (stA : store) (l : loc) (sA : AxFunctionJSONSchema) models',
            schemas stA !! l = Some sA → hasModel sA →
            ∃ twice st2, addModelParameter (Some l) models' stA = (Ok twice, st2)
                         ∧ schemas st2 !! twice = Some sA).
  { intros stA l sA models' Hl Hm.
    rewrite (addModelParameter_run stA (Some l) sA models' Hl).
    rewrite decide_True by done.
    eexists _, _. split; [reflexivity|]. simpl. apply lookup_insert_eq. }
  destruct (decide (hasModel s)) as [Hm|Hm].
  - exists clone, st1, s.
    assert (Hl : schemas st1 !! clone = Some s) by apply lookup_insert_eq.
    split; [done|]. split; [done|]. split; [done|]. split; [done|].
    intros models'. by apply Hagain.
  - set (l2 := fresh (dom (schemas st1))).
    exists l2, (withSchema l2 (withModel models s) st1), (withModel models s).
    assert (Hl : schemas (withSchema l2 (withModel models s) st1) !! l2
                 = Some (withModel models s)) by apply lookup_insert_eq.
    split; [done|]. split; [done|]. split; [done|]. split.
    { intros _. simpl. rewrite lookup_insert_eq.
      split; [done|]. split; [done|]. split; [|done].
      intros k Hk. rewrite lookup_insert_ne by done.
      destruct (properties s); simpl; [done|]. apply lookup_empty. }
    intros models'. apply Hagain; [done|]. apply hasModel_withModel.
Qed.

(** C7. Both projections preserve "every required name is a property":
    if the given shape satisfies it, so does the shape each of them
    returns. *)
Theorem projections_preserve_required_within_properties (st : store) :
  (∀ (schema : loc) (s : AxFunctionJSONSchema) (keys : list string),
     schemas st !! schema = Some s → requiredWithinProperties s →
     ∃ (newSchema : loc) (st' : store) (s' : AxFunctionJSONSchema),
       removePropertiesFromSchema schema keys st = (Ok newSchema, st')
       ∧ schemas st' !! newSchema = Some s' ∧ requiredWithinProperties s')
  ∧ (∀ (parameters : option loc) (s : AxFunctionJSONSchema) (models : list AxAIModel),
       inputShape st parameters = Some s → requiredWithinProperties s →
       ∃ (result : loc) (st' : store) (s' : AxFunctionJSONSchema),
         addModelParameter parameters models st = (Ok result, st')
         ∧ schemas st' !! result = Some s' ∧ requiredWithinProperties s').
Proof.
  split.
  - intros schema s keys Hs Hinv.
    rewrite (removePropertiesFromSchema_run st schema s keys Hs).
    eexists _, _, (projected keys s). split; [reflexivity|].
    split; [apply lookup_insert_eq|].
    intros r Hr. rewrite projected_lookup.
    simpl in Hr. destruct (required s) as [req|] eqn:Hreq; simpl in Hr.
    + apply list_elem_of_filter in Hr as [Hout Hin].
      rewrite bool_decide_eq_false_2 by done.
      apply Hinv. by rewrite Hreq.
    + by apply elem_of_nil in Hr.
  - intros parameters s models Hs Hinv.
    rewrite (addModelParameter_run st parameters s models Hs).
    destruct (decide (hasModel s)) as [Hm|Hm].
    + eexists _, _, s. split; [reflexivity|].
      split; [apply lookup_insert_eq|done].
    + eexists _, _, (withModel models s). split; [reflexivity|].
      split; [apply lookup_insert_eq|].
      intros r Hr. simpl in Hr. simpl.
      apply elem_of_app in Hr as [Hr|Hr].
      * destruct (decide (r = "model")) as [->|Hne].
        { rewrite lookup_insert_eq. eauto. }
        rewrite lookup_insert_ne by done.
        specialize (Hinv r Hr).
        destruct (properties s); simpl in *; [done|].
        by apply is_Some_None in Hinv.
      * apply list_elem_of_singleton in Hr as ->.
        rewrite lookup_insert_eq. eauto.
Qed.

(** *** The adapter *)

Lemma lookup_pick_from (obj acc : Args) (keys : list string) (k : string) :
  foldl (λ result key,
           match obj !! key with
           | Some v => <[key := v]> result
           | None => result
           end) acc keys !! k
  = if decide (k ∈ keys)
    then match obj !! k with Some v => Some v | None => acc !! k end
    else acc !! k.
Proof.
  revert acc. induction keys as [|k' keys IH]; intros acc.
  - reflexivity.
  - cbn [foldl]. rewrite IH. destruct (decide (k = k')) as [->|Hne].
    + rewrite (decide_True (P := k' ∈ k' :: keys)) by left.
      destruct (obj !! k') as [v|] eqn:Hv.
      * rewrite lookup_insert_eq. by destruct (decide (k' ∈ keys)).
      * by destruct (decide (k' ∈ keys)).
    + assert (Hacc : (match obj !! k' with
                      | Some v => <[k' := v]> acc
                      | None => acc
                      end) !! k = acc !! k).
      { destruct (obj !! k'); [by rewrite lookup_insert_ne|done]. }
      rewrite Hacc.
      destruct (decide (k ∈ keys)) as [Hin|Hout].
      * rewrite decide_True; [done|]. by right.
      * rewrite decide_False; [done|]. rewrite elem_of_cons. propositional.
Qed.

Lemma lookup_pick (obj : Args) (keys : list string) (k : string) :
  pick obj keys !! k = if decide (k ∈ keys) then obj !! k else None.
Proof.
  unfold pick. rewrite lookup_pick_from, lookup_empty.
  destruct (decide (k ∈ keys)); [|done]. by destruct (obj !! k).
Qed.

Lemma lookup_updatedChildArgs (parentValues childArgs : Args) (keys : list string)
    (k : string) :
  updatedChildArgs parentValues keys childArgs !! k
  = if decide (k ∈ keys)
    then match parentValues !! k with Some v => Some v | None => childArgs !! k end
    else childArgs !! k.
Proof.
  unfold updatedChildArgs. rewrite lookup_union, lookup_pick.
  destruct (decide (k ∈ keys)).
  - destruct (parentValues !! k); [|by rewrite (left_id_L None _)].
    by destruct (childArgs !! k).
  - by rewrite (left_id_L None _).
Qed.

Lemma elem_of_injectionKeys (parentInputKeys : list string) (childKeys : gset string)
    (exclusions : list string) (k : string) :
  k ∈ injectionKeys parentInputKeys childKeys exclusions
  ↔ k ∈ parentInputKeys ∧ k ∈ childKeys ∧ k ≠ "model" ∧ k ∉ exclusions.
Proof.
  unfold injectionKeys, commonKeys. rewrite !list_elem_of_filter. propositional.
Qed.

Lemma elem_of_childKeysOf (ps : AxFunctionJSONSchema) (k : string) :
  k ∈ childKeysOf ps ↔ is_Some (properties ps ≫= (.!! k)).
Proof.
  unfold childKeysOf. destruct (properties ps) as [p|]; simpl.
  - apply elem_of_dom.
  - split; [intros H; by apply not_elem_of_empty in H|intros H; by apply is_Some_None in H].
Qed.

Lemma processChildAgentFunction_with_schema (st : store) (childFunction params : loc)
    (child : AxFunction) (ps : AxFunctionJSONSchema) (parentValues : Args)
    (parentInputKeys : list string) (modelList : option (list AxAIModel))
    (options : ProcessOptions) :
  functions st !! childFunction = Some child →
  parameters child = Some params →
  schemas st !! params = Some ps →
  let keys := injectionKeys parentInputKeys (childKeysOf ps)
                (opt_excludeFieldsFromPassthrough options) in
  let processed := fresh (dom (functions st)) in
  let projectedParams := fresh (dom (schemas st)) in
  processChildAgentFunction childFunction parentValues parentInputKeys modelList options st
  = if decide (keys = [])
    then (Ok processed,
          {| schemas := schemas st; functions := <[processed := child]> (functions st) |})
    else (Ok processed,
          {| schemas := <[projectedParams := projected keys ps]> (schemas st);
             functions := <[processed := adapted child projectedParams (debug options)
                                           parentValues keys]> (functions st) |}).
Proof.
  intros Hchild Hparams Hps keys processed projectedParams.
  unfold processChildAgentFunction, readFunction, allocFunction. run.
  rewrite Hchild. simpl. rewrite lookup_insert_eq, Hparams.
  unfold readSchema at 1. simpl. rewrite Hps.
  fold (childKeysOf ps). fold keys.
  destruct (decide (keys = [])) as [Hk|Hk].
  - rewrite Hk. reflexivity.
  - assert (Hlen : (0 <? length keys)%nat = true).
    { apply Nat.ltb_lt. destruct keys; [done|simpl; lia]. }
    rewrite Hlen.
    rewrite (removePropertiesFromSchema_run _ params ps keys) by done.
    unfold updateFunction. run. rewrite alter_insert_eq, lookup_insert_eq. simpl.
    rewrite alter_insert_eq. reflexivity.
Qed.

Lemma processChildAgentFunction_without_schema (st : store) (childFunction : loc)
    (child : AxFunction) (parentValues : Args) (parentInputKeys : list string)
    (modelList : option (list AxAIModel)) (options : ProcessOptions) :
  functions st !! childFunction = Some child →
  parameters child = None →
  let processed := fresh (dom (functions st)) in
  let base := fresh (dom (schemas st)) in
  let st1 := withSchema base emptyObjectSchema st in
  let result := fresh (dom (schemas st1)) in
  processChildAgentFunction childFunction parentValues parentInputKeys modelList options st
  = match modelList with
    | Some models =>
        if negb (opt_disableSmartModelRouting options)
           && opt_canConfigureSmartModelRouting options
        then (Ok processed,
              {| schemas := <[result := withModel models emptyObjectSchema]> (schemas st1);
                 functions := <[processed := setParameters (Some result) child]>
                                (functions st) |})
        else (Ok processed,
              {| schemas := schemas st;
                 functions := <[processed := child]> (functions st) |})
    | None => (Ok processed,
               {| schemas := schemas st;
                  functions := <[processed := child]> (functions st) |})
    end.
Proof.
  intros Hchild Hparams processed base st1 result.
  unfold processChildAgentFunction, readFunction, allocFunction. run.
  rewrite Hchild. simpl. rewrite lookup_insert_eq, Hparams.
  destruct modelList as [models|]; [|reflexivity].
  destruct (negb (opt_disableSmartModelRouting options)
            && opt_canConfigureSmartModelRouting options); [|reflexivity].
  run. rewrite lookup_insert_eq, Hparams.
  rewrite (addModelParameter_run _ None emptyObjectSchema models) by reflexivity.
  rewrite decide_False.
  2:{ unfold hasModel. simpl. rewrite lookup_empty. apply is_Some_None. }
  unfold updateFunction. run. rewrite alter_insert_eq. reflexivity.
Qed.

(** C4. For a child callable with a parameter schema the adapter returns
    a new callable description and leaves the child's description and
    schema objects as they were.  A field the parent and the child share
    is an injection key unless it is [model] or a passthrough exclusion.
    Every injection key is gone from the properties and from [required]
    of the returned shape; every other field, an excluded common field in
    particular, is there exactly as in the child's schema.  A call of the
    returned callable runs the child's function on the caller's arguments
    overridden, at injection keys only, by the parent's value for that
    key. *)
Theorem processChildAgentFunction_passthrough (st : store) (childFunction params : loc)
    (child : AxFunction) (ps : AxFunctionJSONSchema) (parentValues : Args)
    (parentInputKeys : list string) (modelList : option (list AxAIModel))
    (options : ProcessOptions) :
  functions st !! childFunction = Some child →
  parameters child = Some params →
  schemas st !! params = Some ps →
  let keys := injectionKeys parentInputKeys (childKeysOf ps)
                (opt_excludeFieldsFromPassthrough options) in
  ∃ (processed shapeRef : loc) (st' : store) (f' : AxFunction)
    (shape' : AxFunctionJSONSchema),
    processChildAgentFunction childFunction parentValues parentInputKeys modelList options st
      = (Ok processed, st')
    ∧ functions st' !! processed = Some f'
    ∧ parameters f' = Some shapeRef
    ∧ schemas st' !! shapeRef = Some shape'
    (* which fields are injected *)
    ∧ (∀ k, k ∈ keys ↔ k ∈ parentInputKeys ∧ is_Some (properties ps ≫= (.!! k))
                         ∧ k ≠ "model"
                         ∧ k ∉ opt_excludeFieldsFromPassthrough options)
    (* the projected shape *)
    ∧ (∀ k, k ∈ keys →
         properties shape' ≫= (.!! k) = None ∧ k ∉ default [] (required shape'))
    ∧ (∀ k, k ∉ keys →
         properties shape' ≫= (.!! k) = properties ps ≫= (.!! k)
         ∧ (k ∈ default [] (required shape') ↔ k ∈ default [] (required ps)))
    (* the wrapped invocation *)
    ∧ (∀ childArgs funcOptions,
         (func f' childArgs funcOptions).2
         = (func child (updatedChildArgs parentValues keys childArgs) funcOptions).2)
    ∧ (∀ childArgs k v, k ∈ keys → parentValues !! k = Some v →
         updatedChildArgs parentValues keys childArgs !! k = Some v)
    ∧ (∀ childArgs k, k ∉ keys →
         updatedChildArgs parentValues keys childArgs !! k = childArgs !! k)
    (* nothing that existed is mutated *)
    ∧ processed ≠ childFunction
    ∧ name f' = name child ∧ func_description f' = func_description child
    ∧ (∀ l x, functions st !! l = Some x → functions st' !! l = Some x)
    ∧ (∀ l x, schemas st !! l = Some x → schemas st' !! l = Some x).
Proof.
  intros Hchild Hparams Hps keys.
  pose proof (processChildAgentFunction_with_schema st childFunction params child ps
                parentValues parentInputKeys modelList options Hchild Hparams Hps) as Hrun.
  cbv zeta in Hrun. fold keys in Hrun.
  pose proof (fresh_function_unused st) as Hff.
  pose proof (fresh_schema_unused st) as Hfs.
  assert (Hkeys : ∀ k, k ∈ keys ↔ k ∈ parentInputKeys ∧ is_Some (properties ps ≫= (.!! k))
                         ∧ k ≠ "model"
                         ∧ k ∉ opt_excludeFieldsFromPassthrough options).
  { intros k. unfold keys. rewrite elem_of_injectionKeys, elem_of_childKeysOf. propositional. }
  assert (Hmerge1 : ∀ childArgs k v, k ∈ keys → parentValues !! k = Some v →
            updatedChildArgs parentValues keys childArgs !! k = Some v).
  { intros childArgs k v Hk Hv. rewrite lookup_updatedChildArgs, decide_True by done.
    by rewrite Hv. }
  assert (Hmerge2 : ∀ childArgs k, k ∉ keys →
            updatedChildArgs parentValues keys childArgs !! k = childArgs !! k).
  { intros childArgs k Hk. by rewrite lookup_updatedChildArgs, decide_False. }
  assert (Hfun : ∀ (x0 : AxFunction) l x,
            functions st !! l = Some x →
            <[fresh (dom (functions st)) := x0]> (functions st) !! l = Some x).
  { intros x0 l x Hl. rewrite lookup_insert_ne; [done|]. congruence. }
  destruct (decide (keys = [])) as [Hk|Hk].
  - eexists (fresh (dom (functions st))), params, _, child, ps.
    split; [exact Hrun|]. simpl.
    split; [apply lookup_insert_eq|]. split; [done|]. split; [done|].
    split; [done|].
    split. { intros k Hin. rewrite Hk in Hin. by apply elem_of_nil in Hin. }
    split; [done|].
    split.
    { intros childArgs funcOptions. rewrite Hk. unfold updatedChildArgs, pick. simpl.
      by rewrite (left_id_L ∅ (∪)). }
    split; [done|]. split; [done|].
    split; [congruence|]. split; [done|]. split; [done|].
    split; [|done]. intros l x Hl. by apply Hfun.
  - eexists (fresh (dom (functions st))), (fresh (dom (schemas st))), _,
      (adapted child (fresh (dom (schemas st))) (debug options) parentValues keys),
      (projected keys ps).
    split; [exact Hrun|]. simpl.
    split; [apply lookup_insert_eq|]. split; [done|].
    split; [apply lookup_insert_eq|]. split; [done|].
    split.
    { intros k Hin. split.
      - pose proof (projected_lookup keys ps k) as Hl. simpl in Hl. rewrite Hl.
        by rewrite bool_decide_eq_true_2.
      - destruct (required ps) as [req|]; simpl; [|apply not_elem_of_nil].
        rewrite list_elem_of_filter. propositional. }
    split.
    { intros k Hout. split.
      - pose proof (projected_lookup keys ps k) as Hl. simpl in Hl. rewrite Hl.
        by rewrite bool_decide_eq_false_2.
      - destruct (required ps) as [req|]; simpl; [|done].
        rewrite list_elem_of_filter. propositional. }
    split.
    { intros childArgs funcOptions. unfold injectingFunc.
      by destruct (func child _ funcOptions). }
    split; [done|]. split; [done|].
    split; [congruence|]. split; [done|]. split; [done|].
    split.
    + intros l x Hl. by apply Hfun.
    + intros l x Hl. rewrite lookup_insert_ne; [done|]. congruence.
Qed.

(** C9. An injection key the parent's values do not hold is not copied
    by [pick]: the wrapped invocation hands the child the caller's own
    argument for that key (or none, if the caller gave none).  The
    parent's value overrides the caller's only where the parent has
    one. *)
Theorem processChildAgentFunction_absent_parent_value (st : store)
    (childFunction params : loc) (child : AxFunction) (ps : AxFunctionJSONSchema)
    (parentValues : Args) (parentInputKeys : list string)
    (modelList : option (list AxAIModel)) (options : ProcessOptions) (k : string) :
  functions st !! childFunction = Some child →
  parameters child = Some params →
  schemas st !! params = Some ps →
  let keys := injectionKeys parentInputKeys (childKeysOf ps)
                (opt_excludeFieldsFromPassthrough options) in
  k ∈ keys →
  parentValues !! k = None →
  ∃ (processed : loc) (st' : store) (f' : AxFunction),
    processChildAgentFunction childFunction parentValues parentInputKeys modelList options st
      = (Ok processed, st')
    ∧ functions st' !! processed = Some f'
    ∧ func f' = injectingFunc (debug options) parentValues keys (func child)
    ∧ (∀ childArgs funcOptions,
         (func f' childArgs funcOptions).2
         = (func child (updatedChildArgs parentValues keys childArgs) funcOptions).2)
    ∧ pick parentValues keys !! k = None
    ∧ (∀ childArgs, updatedChildArgs parentValues keys childArgs !! k = childArgs !! k)
    ∧ (∀ childArgs k' v, k' ∈ keys → parentValues !! k' = Some v →
         updatedChildArgs parentValues keys childArgs !! k' = Some v).
Proof.
  intros Hchild Hparams Hps keys Hk Hnone.
  pose proof (processChildAgentFunction_with_schema st childFunction params child ps
                parentValues parentInputKeys modelList options Hchild Hparams Hps) as Hrun.
  cbv zeta in Hrun. fold keys in Hrun.
  rewrite decide_False in Hrun.
  2:{ intros Hnil. rewrite Hnil in Hk. by apply elem_of_nil in Hk. }
  eexists _, _, _. split; [exact Hrun|]. simpl.
  split; [apply lookup_insert_eq|]. simpl.
  split; [done|].
  split. { intros childArgs funcOptions. unfold injectingFunc.
           by destruct (func child _ funcOptions). }
  split. { by rewrite lookup_pick, decide_True. }
  split. { intros childArgs. rewrite lookup_updatedChildArgs, decide_True by done.
           by rewrite Hnone. }
  intros childArgs k' v Hk' Hv. rewrite lookup_updatedChildArgs, decide_True by done.
  by rewrite Hv.
Qed.

(** C1, what the code does.  For a child callable that has a parameter
    schema the adapter returns before it reaches model routing: whatever
    the model list and the routing options are, the returned shape has a
    [model] property exactly if the child's schema had one, and with no
    injection key the returned description is the child's, unchanged, on
    the child's own schema object, and no schema object is created. *)
Theorem processChildAgentFunction_schema_skips_model_routing (st : store)
    (childFunction params : loc) (child : AxFunction) (ps : AxFunctionJSONSchema)
    (parentValues : Args) (parentInputKeys : list string)
    (modelList : option (list AxAIModel)) (options : ProcessOptions) :
  functions st !! childFunction = Some child →
  parameters child = Some params →
  schemas st !! params = Some ps →
  let keys := injectionKeys parentInputKeys (childKeysOf ps)
                (opt_excludeFieldsFromPassthrough options) in
  ∃ (processed shapeRef : loc) (st' : store) (f' : AxFunction)
    (shape' : AxFunctionJSONSchema),
    processChildAgentFunction childFunction parentValues parentInputKeys modelList options st
      = (Ok processed, st')
    ∧ functions st' !! processed = Some f'
    ∧ parameters f' = Some shapeRef
    ∧ schemas st' !! shapeRef = Some shape'
    ∧ properties shape' ≫= (.!! "model") = properties ps ≫= (.!! "model")
    ∧ (keys = [] → f' = child ∧ shapeRef = params ∧ shape' = ps
                   ∧ schemas st' = schemas st).
Proof.
  intros Hchild Hparams Hps keys.
  pose proof (processChildAgentFunction_with_schema st childFunction params child ps
                parentValues parentInputKeys modelList options Hchild Hparams Hps) as Hrun.
  cbv zeta in Hrun. fold keys in Hrun.
  destruct (decide (keys = [])) as [Hk|Hk].
  - eexists _, params, _, child, ps. split; [exact Hrun|]. simpl.
    split; [apply lookup_insert_eq|]. done.
  - eexists _, _, _, _, (projected keys ps). split; [exact Hrun|]. simpl.
    split; [apply lookup_insert_eq|]. simpl. split; [done|].
    split; [apply lookup_insert_eq|].
    split; [|done].
    pose proof (projected_lookup keys ps "model") as Hl. simpl in Hl. rewrite Hl.
    rewrite bool_decide_eq_false_2; [done|].
    unfold keys. rewrite elem_of_injectionKeys. propositional.
Qed.

(** *** Construction *)

Lemma subAgentNames_run (children : list AxAgentic) (st : store) :
  ∃ st', mapM (λ a, f ← getFunction a; d ← readFunction f; mret (name d)) children st
         = (Ok (map (λ a, name (agentic_function a)) children), st')
         ∧ schemas st' = schemas st.
Proof.
  revert st. induction children as [|a children IH]; intros st.
  - exists st. done.
  - simpl. unfold getFunction, allocFunction, readFunction. run.
    rewrite lookup_insert_eq.
    edestruct IH as (st' & -> & Hsch). eexists. split; [reflexivity|].
    by rewrite Hsch.
Qed.

Lemma empty_or_short (s : string) (n : nat) :
  (0 < n)%nat → bool_decide (s = EmptyString) || (String.length s <? n)%nat = (String.length s <? n)%nat.
Proof.
  intros Hn. case_bool_decide as He; [|done]. subst. simpl.
  symmetry. by apply Nat.ltb_lt.
Qed.

(** C8. With a signature that parses, construction throws exactly when
    the name has fewer than 5 characters (the empty name included) or the
    description fewer than 20 (the empty description included); the
    message is the name message when the name is too short and the
    description message otherwise, and each begins with the field it is
    about.  At lengths 5 and 20 construction succeeds. *)
Theorem newAxAgent_validation (args : AxAgentArgs) (options : option AxAgentOptions)
    (st : store) (signature : AxSignature) :
  newAxSignature (arg_signature args) = Ok signature →
  let result := (newAxAgent args options st).1 in
  ((∃ message, result = Thrown message) ↔ tooShort args)
  ∧ ((String.length (arg_name args) < 5)%nat → result = Thrown (nameError (arg_name args)))
  ∧ ((5 ≤ String.length (arg_name args))%nat → (String.length (arg_description args) < 20)%nat →
       result = Thrown (descriptionError (arg_description args)))
  ∧ ((5 ≤ String.length (arg_name args))%nat → (20 ≤ String.length (arg_description args))%nat →
       ∃ agent, result = Ok agent ∧ agent_name agent = arg_name args
                ∧ agent_description agent = arg_description args)
  ∧ String.prefix "Agent name " (nameError (arg_name args)) = true
  ∧ String.prefix "Agent description " (descriptionError (arg_description args)) = true.
Proof.
  intros Hsig result.
  assert (Hname : (String.length (arg_name args) < 5)%nat →
                  result = Thrown (nameError (arg_name args))).
  { intros Hlt. unfold result, newAxAgent, liftOutcome. run. rewrite Hsig.
    rewrite empty_or_short by lia.
    apply Nat.ltb_lt in Hlt. rewrite Hlt. reflexivity. }
  assert (Hdesc : (5 ≤ String.length (arg_name args))%nat →
                  (String.length (arg_description args) < 20)%nat →
                  result = Thrown (descriptionError (arg_description args))).
  { intros Hge Hlt. unfold result, newAxAgent, liftOutcome. run. rewrite Hsig.
    rewrite !empty_or_short by lia.
    apply Nat.ltb_ge in Hge. rewrite Hge.
    apply Nat.ltb_lt in Hlt. rewrite Hlt. reflexivity. }
  assert (Hok : (5 ≤ String.length (arg_name args))%nat →
                (20 ≤ String.length (arg_description args))%nat →
                ∃ agent, result = Ok agent ∧ agent_name agent = arg_name args
                         ∧ agent_description agent = arg_description args).
  { intros Hn Hd. unfold result, newAxAgent. cbv zeta.
    rewrite (bind_ok _ _ st signature st) by (unfold liftOutcome; by rewrite Hsig).
    apply Nat.ltb_ge in Hn. apply Nat.ltb_ge in Hd.
    rewrite (bind_ok _ _ st tt st) by (rewrite empty_or_short, Hn by lia; reflexivity).
    rewrite (bind_ok _ _ st tt st) by (rewrite empty_or_short, Hd by lia; reflexivity).
    match goal with
    | |- context [mbind _ ?m st] =>
        assert (∃ sub st1, m st = (Ok sub, st1)) as (sub & st1 & Hsub)
    end.
    { destruct (arg_agents args) as [children|]; [|by eexists _, _].
      destruct (subAgentNames_run children st) as (st1 & Hnames & _).
      eexists _, _. erewrite bind_ok by exact Hnames. reflexivity. }
    rewrite (bind_ok _ _ _ _ _ Hsub).
    erewrite bind_ok by reflexivity.
    erewrite bind_ok by reflexivity.
    match goal with
    | |- context [mbind _ ?m ?st2] =>
        assert (∃ st3, m st2 = (Ok tt, st3)) as (st3 & Hroute)
    end.
    { destruct (arg_ai args ≫= getModelList) as [mm|]; [|by eexists].
      destruct (negb _); [|by eexists].
      erewrite bind_ok.
      2:{ unfold readFunction. simpl. rewrite lookup_insert_eq. reflexivity. }
      simpl.
      match goal with
      | |- ∃ _, (addModelParameter (Some ?p) mm ≫= _) ?stA = _ =>
          pose proof (addModelParameter_run stA (Some p) _ mm
                        (lookup_insert_eq _ _ _)) as Hadd
      end.
      cbv zeta in Hadd.
      destruct (decide (hasModel _));
        (erewrite bind_ok by exact Hadd); by eexists. }
    rewrite (bind_ok _ _ _ _ _ Hroute).
    eexists. split; [reflexivity|]. done. }
  assert (Hprefix : ∀ s, String.prefix "Agent name " (nameError s) = true
                         ∧ String.prefix "Agent description " (descriptionError s) = true).
  { intros s. split; reflexivity. }
  split.
  { split.
    - intros [message Hthrown].
      destruct (decide (String.length (arg_name args) < 5)%nat) as [|Hn]; [by left|].
      destruct (decide (String.length (arg_description args) < 20)%nat) as [|Hd];
        [by right|].
      destruct Hok as (agent & Hagent & _); [lia|lia|]. congruence.
    - intros Hshort.
      destruct (decide (String.length (arg_name args) < 5)%nat) as [Hn|Hn];
        [eexists; by apply Hname|].
      destruct Hshort as [|Hd]; [done|].
      eexists. apply Hdesc; [lia|done]. }
  split; [done|]. split; [done|]. split; [done|].
  split; [apply (Hprefix (arg_name args))|apply (Hprefix (arg_description args))].
Qed.

(** *** Names *)

Lemma alnum_to_lower (c : ascii) : is_alnum c = true → is_alnum (to_lower c) = true.
Proof. destruct c as [[] [] [] [] [] [] [] []]; vm_compute; done. Qed.

Lemma alnum_to_upper (c : ascii) : is_alnum c = true → is_alnum (to_upper c) = true.
Proof. destruct c as [[] [] [] [] [] [] [] []]; vm_compute; done. Qed.

Lemma string_forall_map_lower (w : string) :
  string_forall is_alnum w = true →
  string_forall is_alnum (string_map to_lower w) = true.
Proof.
  induction w as [|c w IH]; simpl; [done|].
  intros [Hc Hw]%andb_true_iff. by rewrite alnum_to_lower, IH.
Qed.

Lemma length_string_map (f : ascii → ascii) (w : string) :
  String.length (string_map f w) = String.length w.
Proof. induction w as [|c w IH]; simpl; congruence. Qed.

Lemma split_non_alnum_cons (s : string) : ∃ w ws, split_non_alnum s = w :: ws.
Proof.
  induction s as [|c s (w & ws & IH)]; simpl; [by eexists _, _|].
  destruct (is_alnum c); [rewrite IH|]; by eexists _, _.
Qed.

Lemma split_non_alnum_words (s : string) :
  Forall (λ w, string_forall is_alnum w = true) (split_non_alnum s).
Proof.
  induction s as [|c s IH]; simpl.
  - by constructor.
  - destruct (is_alnum c) eqn:Hc.
    + destruct (split_non_alnum s) as [|w ws]; [by repeat constructor; simpl; rewrite Hc|].
      inversion IH; subst. constructor; [|done]. simpl. by rewrite Hc.
    + by constructor.
Qed.

Lemma split_non_alnum_length (s : string) :
  sum_list (String.length <$> split_non_alnum s) = string_count is_alnum s.
Proof.
  induction s as [|c s IH]; simpl; [done|].
  destruct (is_alnum c).
  - destruct (split_non_alnum_cons s) as (w & ws & Heq).
    rewrite Heq in *. simpl in *. lia.
  - simpl. exact IH.
Qed.

Lemma split_non_alnum_single (s : string) :
  string_forall is_alnum s = true → split_non_alnum s = [s].
Proof.
  induction s as [|c s IH]; simpl; [done|].
  intros [Hc Hs]%andb_true_iff. by rewrite Hc, IH.
Qed.

(** The word [toCamelCase] makes of the [index]-th piece. *)
Definition camelWord (word : string) (index : nat) : string :=
  match string_map to_lower word with
  | String c rest =>
      if (0 <? index)%nat then String (to_upper c) rest
      else string_map to_lower word
  | EmptyString => string_map to_lower word
  end.

Lemma camelWord_alnum (word : string) (index : nat) :
  string_forall is_alnum word = true → string_forall is_alnum (camelWord word index) = true.
Proof.
  intros Hw%string_forall_map_lower. unfold camelWord.
  destruct (string_map to_lower word) as [|c rest]; [done|].
  destruct (0 <? index)%nat; [|done].
  simpl in *. apply andb_true_iff in Hw as [Hc Hrest].
  by rewrite alnum_to_upper, Hrest.
Qed.

Lemma camelWord_length (word : string) (index : nat) :
  String.length (camelWord word index) = String.length word.
Proof.
  unfold camelWord. pose proof (length_string_map to_lower word) as Hlen.
  destruct (string_map to_lower word) as [|c rest]; [done|].
  by destruct (0 <? index)%nat.
Qed.

Lemma string_forall_app (p : ascii → bool) (a b : string) :
  string_forall p (a +:+ b) = string_forall p a && string_forall p b.
Proof. induction a as [|c a IH]; simpl; [done|]. by rewrite IH, andb_assoc. Qed.

Lemma length_string_app (a b : string) :
  String.length (a +:+ b) = String.length a + String.length b.
Proof. induction a as [|c a IH]; simpl; [done|]. by rewrite IH. Qed.

Lemma join_empty_forall (p : ascii → bool) (ws : list string) :
  Forall (λ w, string_forall p w = true) ws → string_forall p (join EmptyString ws) = true.
Proof.
  induction 1 as [|w ws Hw Hws IH]; [done|].
  destruct ws as [|w' ws]; [done|].
  change (join EmptyString (w :: w' :: ws))
    with (w +:+ EmptyString +:+ join EmptyString (w' :: ws)).
  by rewrite !string_forall_app, Hw, IH.
Qed.

Lemma join_empty_length (ws : list string) :
  String.length (join EmptyString ws) = sum_list (String.length <$> ws).
Proof.
  induction ws as [|w ws IH]; [done|].
  destruct ws as [|w' ws]; [simpl; lia|].
  change (join EmptyString (w :: w' :: ws))
    with (w +:+ EmptyString +:+ join EmptyString (w' :: ws)).
  rewrite !length_string_app, IH. simpl. lia.
Qed.

Lemma mapi_from_camelWord (i : nat) (ws : list string) :
  Forall (λ w, string_forall is_alnum w = true) ws →
  Forall (λ w, string_forall is_alnum w = true) (mapi_from i camelWord ws)
  ∧ sum_list (String.length <$> mapi_from i camelWord ws)
    = sum_list (String.length <$> ws).
Proof.
  intros Hws. revert i. induction Hws as [|w ws Hw Hws IH]; intros i; [done|].
  destruct (IH (S i)) as [IH1 IH2]. split.
  - constructor; [by apply camelWord_alnum|done].
  - cbn [mapi_from]. rewrite !fmap_cons. cbn [sum_list sum_list_with].
    by rewrite camelWord_length, IH2.
Qed.

Lemma toCamelCase_words (s : string) :
  toCamelCase s = join EmptyString (mapi_from 0 camelWord (split_non_alnum s)).
Proof. reflexivity. Qed.

(** X1. Whatever the name, [toCamelCase] keeps exactly its letters and
    digits: the result has no other character, and as many characters as
    the name has letters and digits. *)
Theorem toCamelCase_alphanumeric (inputString : string) :
  string_forall is_alnum (toCamelCase inputString) = true
  ∧ String.length (toCamelCase inputString) = string_count is_alnum inputString.
Proof.
  rewrite toCamelCase_words.
  destruct (mapi_from_camelWord 0 _ (split_non_alnum_words inputString)) as [Hall Hlen].
  split.
  - by apply join_empty_forall.
  - by rewrite join_empty_length, Hlen, split_non_alnum_length.
Qed.

(** X2. A name made of letters and digits only is one word, and one
    word is lowercased as a whole: capitals inside it are not kept. *)
Theorem toCamelCase_single_word (inputString : string) :
  string_forall is_alnum inputString = true →
  toCamelCase inputString = string_map to_lower inputString.
Proof.
  intros Hall. rewrite toCamelCase_words, (split_non_alnum_single _ Hall).
  simpl. unfold camelWord. by destruct (string_map to_lower inputString).
Qed.

(** *** More on the projections *)

Lemma projected_app (keys1 keys2 : list string) (s : AxFunctionJSONSchema) :
  projected keys2 (projected keys1 s) = projected (keys1 ++ keys2) s.
Proof.
  apply schema_eq; simpl; try done.
  - destruct (properties s) as [p|]; simpl; [|done]. by rewrite foldl_app.
  - destruct (required s) as [r|]; simpl; [|done]. f_equal.
    rewrite list_filter_filter. apply list_filter_iff.
    intros k. rewrite elem_of_app. propositional.
Qed.

(** X3. Removing fields in two rounds leaves the same shape as removing
    them in one: projecting the result of a projection by [keys2] gives a
    shape structurally equal to projecting the original by
    [keys1 ++ keys2], and the original is still as it was. *)
Theorem removePropertiesFromSchema_twice (st : store) (schema : loc)
    (s : AxFunctionJSONSchema) (keys1 keys2 : list string) :
  schemas st !! schema = Some s →
  ∃ (first second once : loc) (st1 st2 st3 : store) (s2 : AxFunctionJSONSchema),
    removePropertiesFromSchema schema keys1 st = (Ok first, st1)
    ∧ removePropertiesFromSchema first keys2 st1 = (Ok second, st2)
    ∧ removePropertiesFromSchema schema (keys1 ++ keys2) st = (Ok once, st3)
    ∧ schemas st2 !! second = Some s2
    ∧ schemas st3 !! once = Some s2
    ∧ schemas st2 !! schema = Some s.
Proof.
  intros Hs.
  set (first := fresh (dom (schemas st))).
  set (st1 := {| schemas := <[first := projected keys1 s]> (schemas st);
                 functions := functions st |}).
  assert (Hfirst : schemas st1 !! first = Some (projected keys1 s))
    by apply lookup_insert_eq.
  eexists first, _, _, st1, _, _, (projected (keys1 ++ keys2) s).
  split; [by apply removePropertiesFromSchema_run|].
  split; [exact (removePropertiesFromSchema_run st1 first _ keys2 Hfirst)|].
  split; [by apply removePropertiesFromSchema_run|]. simpl.
  split; [by rewrite lookup_insert_eq, projected_app|].
  split; [by rewrite lookup_insert_eq|].
  pose proof (fresh_schema_unused st) as Hf1.
  pose proof (fresh_schema_unused st1) as Hf2.
  rewrite !lookup_insert_ne; [done| |].
  - intros Heq. fold first in Hf1. congruence.
  - intros Heq. simpl in Hf2. rewrite Heq in Hf2.
    rewrite lookup_insert_ne in Hf2; [congruence|].
    intros Heq'. fold first in Hf1. congruence.
Qed.

(** X4. Adding the model field and then removing [model] is a round
    trip: for a shape that has [properties] and [required] and mentions
    [model] in neither, the final shape is structurally equal to the one
    started from. *)
Theorem add_then_remove_model (st : store) (schema : loc) (s : AxFunctionJSONSchema)
    (props : gmap string AxFunctionJSONSchema) (req : list string)
    (models : list AxAIModel) :
  schemas st !! schema = Some s →
  properties s = Some props →
  required s = Some req →
  props !! "model" = None →
  "model" ∉ req →
  ∃ (added removed : loc) (st1 st2 : store),
    addModelParameter (Some schema) models st = (Ok added, st1)
    ∧ removePropertiesFromSchema added ["model"] st1 = (Ok removed, st2)
    ∧ schemas st2 !! removed = Some s.
Proof.
  intros Hs Hprops Hreq Hnone Hnotin.
  pose proof (addModelParameter_run st (Some schema) s models Hs) as Hadd.
  cbv zeta in Hadd. rewrite decide_False in Hadd.
  2:{ unfold hasModel. rewrite Hprops. simpl. rewrite Hnone. apply is_Some_None. }
  set (st1 := withSchema (fresh (dom (schemas st))) s st) in *.
  set (added := fresh (dom (schemas st1))) in *.
  assert (Hadded : schemas (withSchema added (withModel models s) st1) !! added
                   = Some (withModel models s)) by apply lookup_insert_eq.
  eexists _, _, _, _. split; [exact Hadd|].
  split; [exact (removePropertiesFromSchema_run _ added _ ["model"] Hadded)|]. simpl.
  rewrite lookup_insert_eq. f_equal.
  apply schema_eq; simpl; try done.
  - rewrite Hprops. simpl. f_equal. rewrite delete_insert_eq. by apply delete_id.
  - rewrite Hreq. simpl. f_equal. rewrite filter_app.
    rewrite filter_all.
    2:{ intros k Hk Hin. apply list_elem_of_singleton in Hin. by subst. }
    rewrite filter_cons_False; [by rewrite filter_nil, app_nil_r|].
    intros Hout. apply Hout. left.
Qed.

(** X5. [addModelParameter] creates objects and changes none: the
    object it returns did not exist before, every schema object that
    existed is still there unchanged, and the callables are untouched. *)
Theorem addModelParameter_creates_only (st : store) (parameters : option loc)
    (s : AxFunctionJSONSchema) (models : list AxAIModel) :
  inputShape st parameters = Some s →
  ∃ (result : loc) (st' : store),
    addModelParameter parameters models st = (Ok result, st')
    ∧ schemas st !! result = None
    ∧ is_Some (schemas st' !! result)
    ∧ (∀ l x, schemas st !! l = Some x → schemas st' !! l = Some x)
    ∧ functions st' = functions st.
Proof.
  intros Hs. rewrite (addModelParameter_run st parameters s models Hs).
  pose proof (fresh_schema_unused st) as Hf1.
  set (clone := fresh (dom (schemas st))) in *.
  set (st1 := withSchema clone s st).
  pose proof (fresh_schema_unused st1) as Hf2.
  assert (Hkeep1 : ∀ l x, schemas st !! l = Some x → schemas st1 !! l = Some x).
  { intros l x Hl. simpl. rewrite lookup_insert_ne; [done|]. congruence. }
  destruct (decide (hasModel s)).
  - exists clone, st1. split; [done|]. split; [done|].
    split; [simpl; rewrite lookup_insert_eq; eauto|]. done.
  - eexists _, _. split; [done|]. simpl.
    split.
    { simpl in Hf2. destruct (decide (fresh (dom (<[clone:=s]> (schemas st))) = clone))
        as [Heq|Hne]; [by rewrite Heq|].
      by rewrite lookup_insert_ne in Hf2. }
    split; [rewrite lookup_insert_eq; eauto|]. split; [|done].
    intros l x Hl. rewrite lookup_insert_ne; [by apply Hkeep1|].
    intros Heq. specialize (Hkeep1 l x Hl). simpl in Hkeep1, Hf2. congruence.
Qed.

(** *** More on the adapter *)



(** X7. For a child callable without a parameter schema the adapter
    does route: when a model list is given, routing is not disabled and
    the child allows it, the returned callable gets a new schema whose
    only property, and only required name, is [model]; otherwise the
    returned callable has no schema either.  Name, description and
    function are the child's, and the child's description object is left
    as it was. *)
Theorem processChildAgentFunction_without_parameters (st : store) (childFunction : loc)
    (child : AxFunction) (parentValues : Args) (parentInputKeys : list string)
    (modelList : option (list AxAIModel)) (options : ProcessOptions) :
  functions st !! childFunction = Some child →
  parameters child = None →
  let routed := match modelList with
                | Some _ => negb (opt_disableSmartModelRouting options)
                            && opt_canConfigureSmartModelRouting options
                | None => false
                end in
  ∃ (processed : loc) (st' : store) (f' : AxFunction),
    processChildAgentFunction childFunction parentValues parentInputKeys modelList options st
      = (Ok processed, st')
    ∧ functions st' !! processed = Some f'
    ∧ name f' = name child ∧ func_description f' = func_description child
    ∧ func f' = func child
    ∧ functions st' !! childFunction = Some child
    ∧ (routed = false → parameters f' = None ∧ schemas st' = schemas st)
    ∧ (routed = true →
         ∃ models shapeRef shape,
           modelList = Some models
           ∧ parameters f' = Some shapeRef
           ∧ schemas st' !! shapeRef = Some shape
           ∧ properties shape = Some {[ "model" := modelProperty models ]}
           ∧ required shape = Some ["model"]
           ∧ type shape = "object").
Proof using Type.
  intros Hchild Hparams routed.
  pose proof (processChildAgentFunction_without_schema st childFunction child
                parentValues parentInputKeys modelList options Hchild Hparams) as Hrun.
  cbv zeta in Hrun.
  pose proof (fresh_function_unused st) as Hfresh.
  assert (Hkeep : ∀ x : AxFunction,
            <[fresh (dom (functions st)) := x]> (functions st) !! childFunction
            = Some child).
  { intros x. rewrite lookup_insert_ne; [done|]. congruence. }
  unfold routed. destruct modelList as [models|].
  - destruct (negb _ && _) eqn:Heligible.
    + eexists _, _, _. split; [exact Hrun|]. simpl.
      split; [apply lookup_insert_eq|]. simpl.
      do 3 (split; [done|]). split; [apply Hkeep|]. split; [done|].
      intros _. eexists models, _, _. split; [done|]. split; [done|].
      split; [apply lookup_insert_eq|]. simpl.
      by rewrite insert_empty.
    + eexists _, _, child. split; [exact Hrun|]. simpl.
      split; [apply lookup_insert_eq|].
      do 3 (split; [done|]). split; [apply Hkeep|]. split; [done|]. done.
  - eexists _, _, child. split; [exact Hrun|]. simpl.
    split; [apply lookup_insert_eq|].
    do 3 (split; [done|]). split; [apply Hkeep|]. split; [done|]. done.
Qed.

(** X11. [pick] returns a part of the object: every property of the
    result is a property of the object with the same value, and the
    properties of the result are exactly the listed keys the object has;
    picking again with the same keys changes nothing. *)
Theorem pick_part_of_object (obj : Args) (keys : list string) :
  pick obj keys ⊆ obj
  ∧ dom (pick obj keys) = dom obj ∩ list_to_set keys
  ∧ pick (pick obj keys) keys = pick obj keys.
Proof using Type.
  split; [|split].
  - apply map_subseteq_spec. intros k v. rewrite lookup_pick.
    by destruct (decide (k ∈ keys)).
  - apply set_eq. intros k.
    rewrite elem_of_intersection, !elem_of_dom, elem_of_list_to_set, lookup_pick.
    destruct (decide (k ∈ keys)) as [Hin|Hout].
    + split; [by intros H|by intros [H _]].
    + split; [by intros H%is_Some_None|by intros [_ H]].
  - apply map_eq. intros k. rewrite !lookup_pick. by destruct (decide (k ∈ keys)).
Qed.

(** *** More on the agent *)

(** X8. A construction that passes the two length checks builds the
    agent's own callable as follows: its name is the camel-cased agent
    name, its description the agent's, and its parameter schema is the
    signature's schema, with the [model] field added exactly when the
    agent's own service has a model list, routing is not disabled and the
    schema has no [model] yet.  An agent without a service of its own,
    the only kind whose features allow routing to be configured, keeps
    the signature's schema as it is. *)
Theorem newAxAgent_own_callable (args : AxAgentArgs) (options : option AxAgentOptions)
    (st : store) (signature : AxSignature) :
  newAxSignature (arg_signature args) = Ok signature →
  (5 ≤ String.length (arg_name args))%nat →
  (20 ≤ String.length (arg_description args))%nat →
  let base := toJSONSchema (setDescription (arg_description args) signature) in
  ∃ (agent : AxAgent) (st' : store) (f : AxFunction) (shapeRef : loc)
    (shape : AxFunctionJSONSchema),
    newAxAgent args options st = (Ok agent, st')
    ∧ functions st' !! agent_func agent = Some f
    ∧ name f = toCamelCase (arg_name args)
    ∧ func_description f = arg_description args
    ∧ agent_description agent = arg_description args
    ∧ parameters f = Some shapeRef
    ∧ schemas st' !! shapeRef = Some shape
    ∧ shape = match arg_ai args ≫= getModelList with
              | Some mm =>
                  if negb (default false (options ≫= disableSmartModelRouting))
                  then if decide (hasModel base) then base else withModel mm base
                  else base
              | None => base
              end
    ∧ (canConfigureSmartModelRouting (AxAgent_getFeatures agent) = true → shape = base)
    ∧ (∀ l x, schemas st !! l = Some x → schemas st' !! l = Some x).
Proof using Type.
  intros Hsig Hn Hd base. unfold newAxAgent. cbv zeta.
  rewrite (bind_ok _ _ st signature st) by (unfold liftOutcome; by rewrite Hsig).
  apply Nat.ltb_ge in Hn. apply Nat.ltb_ge in Hd.
  rewrite (bind_ok _ _ st tt st) by (rewrite empty_or_short, Hn by lia; reflexivity).
  rewrite (bind_ok _ _ st tt st) by (rewrite empty_or_short, Hd by lia; reflexivity).
  match goal with
  | |- context [mbind _ ?m st] =>
      assert (∃ sub st1, m st = (Ok sub, st1) ∧ schemas st1 = schemas st)
        as (sub & st1 & Hsub & Hsch)
  end.
  { destruct (arg_agents args) as [children|]; [|by eexists _, _].
    destruct (subAgentNames_run children st) as (st1 & Hnames & Hsch).
    eexists _, _. erewrite bind_ok by exact Hnames. done. }
  rewrite (bind_ok _ _ _ _ _ Hsub).
  erewrite (bind_ok (allocSchema _)) by reflexivity.
  erewrite (bind_ok (allocFunction _)) by reflexivity.
  unfold allocSchema, allocFunction. cbn [schemas functions].
  set (paramsRef := fresh (dom (schemas st1))).
  set (funcRef := fresh (dom (functions st1))).
  set (own := {| name := toCamelCase (arg_name args);
                 func_description := arg_description args;
                 parameters := Some paramsRef;
                 func := λ (_ : Args) (_ : FuncOptions), ([], forward) |}).
  match goal with
  | |- context [mbind _ _ ?s] => set (st2 := s)
  end.
  assert (Hst2 : schemas st2 = <[paramsRef := base]> (schemas st1)
                 ∧ functions st2 = <[funcRef := own]> (functions st1)) by done.
  destruct Hst2 as [Hsch2 Hfun2].
  assert (Hkeep : ∀ l x, schemas st !! l = Some x → schemas st2 !! l = Some x).
  { intros l x Hl. rewrite Hsch2, lookup_insert_ne; [by rewrite Hsch|].
    intros <-. pose proof (fresh_schema_unused st1) as Hf. fold paramsRef in Hf.
    rewrite Hsch in Hf. congruence. }
  assert (Hown : functions st2 !! funcRef = Some own)
    by (rewrite Hfun2; apply lookup_insert_eq).
  assert (Hbase : schemas st2 !! paramsRef = Some base)
    by (rewrite Hsch2; apply lookup_insert_eq).
  clearbody st2.
  match goal with
  | |- context [mbind _ ?m st2] =>
      assert (∃ st3 f shapeRef shape,
                m st2 = (Ok tt, st3)
                ∧ functions st3 !! funcRef = Some f
                ∧ name f = toCamelCase (arg_name args)
                ∧ func_description f = arg_description args
                ∧ parameters f = Some shapeRef
                ∧ schemas st3 !! shapeRef = Some shape
                ∧ shape = match arg_ai args ≫= getModelList with
                          | Some mm =>
                              if negb (default false (options ≫= disableSmartModelRouting))
                              then if decide (hasModel base) then base
                                   else withModel mm base
                              else base
                          | None => base
                          end
                ∧ (∀ l x, schemas st !! l = Some x → schemas st3 !! l = Some x))
        as (st3 & f & shapeRef & shape & Hrouting & Hf & Hname & Hdesc & Hparams
            & Hshape & Hwhich & Hkeep3)
  end.
  { assert (Hplain : ∃ st3 f shapeRef shape,
              (Ok (A := unit) tt, st2) = (Ok tt, st3)
              ∧ functions st3 !! funcRef = Some f
              ∧ name f = toCamelCase (arg_name args)
              ∧ func_description f = arg_description args
              ∧ parameters f = Some shapeRef
              ∧ schemas st3 !! shapeRef = Some shape
              ∧ shape = base
              ∧ (∀ l x, schemas st !! l = Some x → schemas st3 !! l = Some x)).
    { exists st2, own, paramsRef, base. done. }
    destruct (arg_ai args ≫= getModelList) as [mm|]; [|exact Hplain].
    destruct (negb (default false (options ≫= disableSmartModelRouting)));
      [|exact Hplain].
    erewrite bind_ok.
    2:{ unfold readFunction. rewrite Hown. reflexivity. }
    pose proof (addModelParameter_run st2 (Some paramsRef) base mm Hbase) as Hadd.
    cbv zeta in Hadd. simpl parameters.
    pose proof (fresh_schema_unused st2) as Hfresh2.
    destruct (decide (hasModel base)) as [Hhas|Hhas].
    - erewrite bind_ok by exact Hadd.
      eexists _, _, _, base. split; [reflexivity|]. simpl.
      split; [by rewrite lookup_alter_eq, Hown|]. simpl. do 3 (split; [done|]).
      split; [apply lookup_insert_eq|]. split; [done|].
      intros l x Hl. rewrite lookup_insert_ne; [by apply Hkeep|].
      intros <-. specialize (Hkeep _ _ Hl). congruence.
    - erewrite bind_ok by exact Hadd.
      set (st2' := withSchema (fresh (dom (schemas st2))) base st2) in *.
      pose proof (fresh_schema_unused st2') as Hfresh3.
      eexists _, _, _, (withModel mm base). split; [reflexivity|]. simpl.
      split; [by rewrite lookup_alter_eq, Hown|]. simpl. do 3 (split; [done|]).
      split; [apply lookup_insert_eq|]. split; [done|].
      intros l x Hl.
      assert (Hl2 : schemas st2' !! l = Some x).
      { simpl. rewrite lookup_insert_ne; [by apply Hkeep|].
        intros <-. specialize (Hkeep _ _ Hl). congruence. }
      rewrite lookup_insert_ne; [exact Hl2|].
      intros Heq. subst l. simpl in Hl2, Hfresh3. congruence. }
  rewrite (bind_ok _ _ _ _ _ Hrouting).
  eexists _, st3, f, shapeRef, shape. split; [reflexivity|]. simpl.
  do 7 (split; [done|]). split; [|done].
  intros Hcan. rewrite Hwhich. by destruct (arg_ai args).
Qed.

(** X9. [setDescription] keeps the two copies of the description
    together.  A description of fewer than 20 characters is refused and
    nothing changes; otherwise the agent's description, its signature's
    and the description of its callable object all become the new one,
    while the callable's name, schema and function, every other callable
    and every schema stay as they were. *)
Theorem AxAgent_setDescription_synchronised (description : string) (self : AxAgent)
    (st : store) (f : AxFunction) :
  functions st !! agent_func self = Some f →
  ((String.length description < 20)%nat →
     AxAgent_setDescription description self st = (Thrown setDescriptionError, st))
  ∧ ((20 ≤ String.length description)%nat →
       ∃ (self' : AxAgent) (st' : store),
         AxAgent_setDescription description self st = (Ok self', st')
         ∧ agent_description self' = description
         ∧ agent_signature self' = setDescription description (agent_signature self)
         ∧ agent_func self' = agent_func self
         ∧ agent_name self' = agent_name self
         ∧ functions st' !! agent_func self
           = Some {| name := name f; func_description := description;
                     parameters := parameters f; func := func f |}
         ∧ (∀ l, l ≠ agent_func self → functions st' !! l = functions st !! l)
         ∧ schemas st' = schemas st).
Proof using Type.
  intros Hf. split.
  - intros Hlt. unfold AxAgent_setDescription.
    rewrite empty_or_short by lia. apply Nat.ltb_lt in Hlt. rewrite Hlt.
    by apply bind_thrown.
  - intros Hge. unfold AxAgent_setDescription.
    rewrite empty_or_short by lia. apply Nat.ltb_ge in Hge. rewrite Hge.
    erewrite bind_ok by reflexivity. erewrite bind_ok by reflexivity.
    eexists _, _. split; [reflexivity|]. simpl.
    do 4 (split; [done|]).
    split; [by rewrite lookup_alter_eq, Hf|].
    split; [|done]. intros l Hne. by rewrite lookup_alter_ne.
Qed.

(** *** Assembling the callables *)

Lemma extends_refl (st : store) : extends st st.
Proof. done. Qed.

Lemma extends_trans (st1 st2 st3 : store) :
  extends st1 st2 → extends st2 st3 → extends st1 st3.
Proof. intros [H1 H2] [H3 H4]. split; eauto. Qed.

Lemma extends_insert_function (st : store) (l : loc) (f : AxFunction) :
  functions st !! l = None →
  extends st {| schemas := schemas st; functions := <[l := f]> (functions st) |}.
Proof.
  intros Hnone. split; [done|]. simpl. intros l' x Hl.
  rewrite lookup_insert_ne; [done|]. congruence.
Qed.

Lemma extends_insert_schema (st : store) (l : loc) (s : AxFunctionJSONSchema) :
  schemas st !! l = None →
  extends st {| schemas := <[l := s]> (schemas st); functions := functions st |}.
Proof.
  intros Hnone. split; [|done]. simpl. intros l' x Hl.
  rewrite lookup_insert_ne; [done|]. congruence.
Qed.

Lemma extends_insert_both (st : store) (ls lf : loc) (s : AxFunctionJSONSchema)
    (f : AxFunction) :
  schemas st !! ls = None → functions st !! lf = None →
  extends st {| schemas := <[ls := s]> (schemas st);
                functions := <[lf := f]> (functions st) |}.
Proof.
  intros Hs Hf. split; simpl; intros l' x Hl; (rewrite lookup_insert_ne; [done|]);
    congruence.
Qed.

Lemma liveParameters_extends (st st' : store) (f : AxFunction) :
  extends st st' → liveParameters st f → liveParameters st' f.
Proof.
  intros [Hsch _]. unfold liveParameters. destruct (parameters f) as [p|]; [|done].
  intros [x Hx]. eauto.
Qed.

(** One child: its callable is copied and adapted. *)
Lemma adapt_child (st : store) (agent : AxAgentic) (values : Args)
    (parentKeys : list string) (mm : option (list AxAIModel)) (options : ProcessOptions) :
  liveParameters st (agentic_function agent) →
  ∃ (adaptedRef : loc) (st' : store) (f : AxFunction),
    (childFunction ← getFunction agent;
     processChildAgentFunction childFunction values parentKeys mm options) st
      = (Ok adaptedRef, st')
    ∧ extends st st'
    ∧ functions st' !! adaptedRef = Some f
    ∧ name f = name (agentic_function agent)
    ∧ func_description f = func_description (agentic_function agent).
Proof using Type.
  intros Hlive.
  set (child := agentic_function agent) in *.
  set (copy := fresh (dom (functions st))).
  set (st0 := {| schemas := schemas st; functions := <[copy := child]> (functions st) |}).
  assert (Hget : getFunction agent st = (Ok copy, st0)) by reflexivity.
  assert (Hext0 : extends st st0)
    by (apply extends_insert_function, fresh_function_unused).
  assert (Hcopy : functions st0 !! copy = Some child) by apply lookup_insert_eq.
  erewrite bind_ok by exact Hget.
  pose proof (fresh_function_unused st0) as Hff.
  pose proof (fresh_schema_unused st0) as Hfs.
  destruct (parameters child) as [params|] eqn:Hparams.
  - unfold liveParameters in Hlive. rewrite Hparams in Hlive.
    destruct Hlive as [ps Hps].
    assert (Hps0 : schemas st0 !! params = Some ps) by done.
    pose proof (processChildAgentFunction_with_schema st0 copy params child ps values
                  parentKeys mm options Hcopy Hparams Hps0) as Hrun.
    cbv zeta in Hrun. rewrite Hrun.
    destruct (decide (_ = [])).
    + eexists _, _, child. split; [reflexivity|].
      split; [eapply extends_trans; [exact Hext0|by apply extends_insert_function]|].
      split; [apply lookup_insert_eq|]. done.
    + eexists _, _, _. split; [reflexivity|].
      split.
      { eapply extends_trans; [exact Hext0|]. by apply extends_insert_both. }
      split; [apply lookup_insert_eq|]. done.
  - pose proof (processChildAgentFunction_without_schema st0 copy child values
                  parentKeys mm options Hcopy Hparams) as Hrun.
    cbv zeta in Hrun. rewrite Hrun.
    assert (Hplain : ∃ adaptedRef st' f,
              (Ok (fresh (dom (functions st0))),
               {| schemas := schemas st0;
                  functions := <[fresh (dom (functions st0)) := child]> (functions st0) |})
              = (Ok adaptedRef, st')
              ∧ extends st st' ∧ functions st' !! adaptedRef = Some f
              ∧ name f = name child ∧ func_description f = func_description child).
    { eexists _, _, child. split; [reflexivity|].
      split; [eapply extends_trans; [exact Hext0|by apply extends_insert_function]|].
      split; [apply lookup_insert_eq|]. done. }
    destruct mm as [models|]; [|exact Hplain].
    destruct (negb _ && _); [|exact Hplain].
    eexists _, _, _. split; [reflexivity|].
    split.
    { eapply extends_trans; [exact Hext0|].
      eapply extends_trans; [apply (extends_insert_schema st0 _ emptyObjectSchema Hfs)|].
      apply (extends_insert_both
               (withSchema (fresh (dom (schemas st0))) emptyObjectSchema st0));
        [apply fresh_schema_unused|exact Hff]. }
    split; [apply lookup_insert_eq|]. done.
Qed.

Lemma adapt_children (agents : list AxAgentic) (st : store) (values : Args)
    (parentKeys : list string) (mm : option (list AxAIModel))
    (options : AxAgentic → ProcessOptions) :
  Forall (λ a, liveParameters st (agentic_function a)) agents →
  ∃ (agentFuncs : list loc) (st' : store),
    mapM (λ agent,
            childFunction ← getFunction agent;
            processChildAgentFunction childFunction values parentKeys mm (options agent))
         agents st = (Ok agentFuncs, st')
    ∧ extends st st'
    ∧ Forall2 (λ l a, ∃ f, functions st' !! l = Some f
                           ∧ name f = name (agentic_function a)
                           ∧ func_description f = func_description (agentic_function a))
              agentFuncs agents.
Proof using Type.
  revert st. induction agents as [|a agents IH]; intros st Hlive.
  - exists [], st. split; [done|]. split; [apply extends_refl|constructor].
  - inversion Hlive as [|? ? Ha Hrest]; subst.
    destruct (adapt_child st a values parentKeys mm (options a) Ha)
      as (l & st1 & f & Hrun & Hext & Hf & Hname & Hdesc).
    destruct (IH st1) as (ls & st2 & Hruns & Hext2 & Hall).
    { eapply Forall_impl; [exact Hrest|]. intros a' Ha'.
      by eapply liveParameters_extends. }
    exists (l :: ls), st2.
    split.
    { change (mapM ?g (a :: agents)) with (y ← g a; k ← mapM g agents; mret (y :: k)).
      erewrite bind_ok by exact Hrun. erewrite bind_ok by exact Hruns. reflexivity. }
    split; [by eapply extends_trans|].
    constructor; [|done]. exists f. split; [|done]. by apply Hext2.
Qed.

(** X10. [init] hands the generator the caller's functions if the call
    gives any, else the agent's own, else none, followed by one adapted
    callable per child agent in the order of the children, each under the
    child's name and description; the service is the agent's own if it
    has one, else the caller's.  Assembling them creates objects and
    changes none. *)
Theorem init_assembles_functions (self : AxAgent) (parentAi : AIService)
    (values : Args) (optionsFunctions : option (list loc)) (st : store) :
  Forall (λ a, liveParameters st (agentic_function a)) (default [] (agent_agents self)) →
  ∃ (agentFuncs : list loc) (st' : store),
    init self parentAi values optionsFunctions st
      = (Ok (default parentAi (agent_ai self),
             default (default [] (agent_functions self)) optionsFunctions ++ agentFuncs)%list,
         st')
    ∧ length agentFuncs = length (default [] (agent_agents self))
    ∧ Forall2 (λ l a, ∃ f, functions st' !! l = Some f
                           ∧ name f = name (agentic_function a)
                           ∧ func_description f = func_description (agentic_function a))
              agentFuncs (default [] (agent_agents self))
    ∧ extends st st'.
Proof using Type.
  intros Hlive. unfold init. cbv zeta.
  destruct (agent_agents self) as [agents|]; simpl in Hlive.
  - match goal with
    | |- context [mapM ?g agents] =>
        destruct (adapt_children agents st values
                    (inputFieldNames (agent_signature self))
                    (getModelList (default parentAi (agent_ai self)))
                    (λ agent,
                       {| debug := default false (debugOption (default parentAi (agent_ai self)));
                          opt_disableSmartModelRouting :=
                            default false (agent_disableSmartModelRouting self);
                          opt_excludeFieldsFromPassthrough :=
                            excludeFieldsFromPassthrough (getFeatures agent);
                          opt_canConfigureSmartModelRouting :=
                            canConfigureSmartModelRouting (getFeatures agent) |})
                    Hlive) as (agentFuncs & st' & Hrun & Hext & Hall)
    end.
    exists agentFuncs, st'. split.
    { erewrite bind_ok.
      2:{ erewrite bind_ok by exact Hrun. reflexivity. }
      reflexivity. }
    split; [by eapply Forall2_length|]. done.
  - exists [], st. split; [reflexivity|]. split; [done|].
    split; [constructor|apply extends_refl].
Qed.

End Model.

(** *** Concrete inputs *)

(** Argument values and results are strings here; a callable has no
    options. *)
Definition stringSchema : AxFunctionJSONSchema :=
  {| type := "string"; properties := None; required := None;
     enum := None; description := None |}.

(** A child's schema with the fields [region] and [query], both
    required. *)
Definition regionShape : AxFunctionJSONSchema :=
  {| type := "object";
     properties := Some {[ "region" := stringSchema; "query" := stringSchema ]};
     required := Some ["region"; "query"];
     enum := None; description := None |}.

(** The child's function reports the [region] it is called with. *)
Definition childCallable : @AxFunction string string unit :=
  {| name := "lookupWeather";
     func_description := "Looks up the weather of a region";
     parameters := Some 1%positive;
     func := λ args _, ([], default "no region" (args !! "region")) |}.

Definition childStore : @store string string unit :=
  {| schemas := {[ 1%positive := regionShape ]};
     functions := {[ 1%positive := childCallable ]} |}.

Definition someModels : list AxAIModel :=
  [ {| key := "fast"; model := "model-a"; model_description := "quick answers" |};
    {| key := "deep"; model := "model-b"; model_description := "hard problems" |} ].

Definition routingAllowed : ProcessOptions :=
  {| debug := false; opt_disableSmartModelRouting := false;
     opt_excludeFieldsFromPassthrough := [];
     opt_canConfigureSmartModelRouting := true |}.

Definition noStringify : gmap string string → string := λ _, EmptyString.

Definition parentWithRegion : gmap string string := {[ "region" := "EU" ]}.

Definition parentWithoutRegion : gmap string string := {[ "topic" := "weather" ]}.

Definition boundaryArgs : @AxAgentArgs string string unit unit string :=
  {| arg_ai := None; arg_name := "agent";
     arg_description := "twenty characters ok";
     arg_signature := "question -> answer";
     arg_agents := None; arg_functions := None |}.

Lemma regionShape_required_within_properties : requiredWithinProperties regionShape.
Proof.
  intros r Hr. simpl in Hr.
  apply elem_of_cons in Hr as [->|Hr]; [by eexists|].
  apply elem_of_cons in Hr as [->|Hr]; [by eexists|].
  by apply elem_of_nil in Hr.
Qed.

Lemma removePropertiesFromSchema_copy_witness :
  schemas childStore !! 1%positive = Some regionShape
  ∧ ∃ newSchema s',
      (removePropertiesFromSchema 1%positive ["region"] childStore).1 = Ok newSchema
      ∧ schemas (removePropertiesFromSchema 1%positive ["region"] childStore).2
          !! newSchema = Some s'
      ∧ required s' = Some ["query"]
      ∧ properties s' ≫= (.!! "region") = None.
Proof.
  split; [reflexivity|].
  destruct (removePropertiesFromSchema_copy childStore 1%positive regionShape ["region"]
              eq_refl)
    as (newSchema & s' & Hrun & _ & _ & Hreq & Hgone & _).
  exists newSchema, s'. rewrite Hrun. simpl.
  split; [reflexivity|]. split; [apply lookup_insert_eq|].
  split; [rewrite Hreq; reflexivity|].
  apply Hgone. left.
Defined.

Lemma addModelParameter_idempotent_witness :
  inputShape childStore (Some 1%positive) = Some regionShape
  ∧ ∃ once st1 s1,
      addModelParameter (Some 1%positive) someModels childStore = (Ok once, st1)
      ∧ schemas st1 !! once = Some s1
      ∧ required s1 = Some ["region"; "query"; "model"]
      ∧ ∃ twice st2, addModelParameter (Some once) someModels st1 = (Ok twice, st2)
                     ∧ schemas st2 !! twice = Some s1.
Proof.
  split; [reflexivity|].
  destruct (addModelParameter_idempotent childStore (Some 1%positive) regionShape
              someModels eq_refl)
    as (once & st1 & s1 & Hrun & Hs1 & _ & Hnew & Hagain).
  exists once, st1, s1. split; [exact Hrun|]. split; [exact Hs1|].
  split; [|apply Hagain].
  destruct Hnew as (_ & Hreq & _); [|exact Hreq].
  unfold hasModel. simpl. intros [x Hx]. vm_compute in Hx. discriminate.
Defined.

Lemma projections_preserve_required_within_properties_witness :
  schemas childStore !! 1%positive = Some regionShape
  ∧ requiredWithinProperties regionShape
  ∧ (∃ newSchema st' s',
       removePropertiesFromSchema 1%positive ["region"] childStore = (Ok newSchema, st')
       ∧ schemas st' !! newSchema = Some s' ∧ requiredWithinProperties s')
  ∧ (∃ result st' s',
       addModelParameter (Some 1%positive) someModels childStore = (Ok result, st')
       ∧ schemas st' !! result = Some s' ∧ requiredWithinProperties s').
Proof.
  split; [reflexivity|].
  split; [exact regionShape_required_within_properties|].
  destruct (projections_preserve_required_within_properties childStore)
    as [Hremove Hadd].
  split.
  - exact (Hremove 1%positive regionShape ["region"] eq_refl
             regionShape_required_within_properties).
  - exact (Hadd (Some 1%positive) regionShape someModels eq_refl
             regionShape_required_within_properties).
Defined.

Lemma processChildAgentFunction_passthrough_witness :
  functions childStore !! 1%positive = Some childCallable
  ∧ parameters childCallable = Some 1%positive
  ∧ schemas childStore !! 1%positive = Some regionShape
  ∧ ∃ processed st' f',
      processChildAgentFunction noStringify 1%positive parentWithRegion
        ["region"; "topic"] None routingAllowed childStore = (Ok processed, st')
      ∧ functions st' !! processed = Some f'
      ∧ (func f' {[ "region" := "US"; "query" := "rain" ]} tt).2
        = (func childCallable
             (updatedChildArgs parentWithRegion
                (injectionKeys ["region"; "topic"] (childKeysOf regionShape) [])
                {[ "region" := "US"; "query" := "rain" ]}) tt).2
      ∧ functions st' !! 1%positive = Some childCallable.
Proof.
  split; [reflexivity|]. split; [reflexivity|]. split; [reflexivity|].
  destruct (processChildAgentFunction_passthrough noStringify childStore 1%positive
              1%positive childCallable regionShape parentWithRegion
              ["region"; "topic"] None routingAllowed eq_refl eq_refl eq_refl)
    as (processed & shapeRef & st' & f' & shape' & Hrun & Hf' & _ & _ & _ & _ & _
        & Hcall & _ & _ & _ & _ & _ & Hkeep & _).
  exists processed, st', f'. split; [exact Hrun|]. split; [exact Hf'|].
  split; [apply Hcall|]. apply Hkeep. reflexivity.
Defined.

Lemma processChildAgentFunction_absent_parent_value_witness :
  functions childStore !! 1%positive = Some childCallable
  ∧ parameters childCallable = Some 1%positive
  ∧ schemas childStore !! 1%positive = Some regionShape
  ∧ "region" ∈ injectionKeys ["region"; "topic"] (childKeysOf regionShape) []
  ∧ parentWithoutRegion !! "region" = None
  ∧ updatedChildArgs parentWithoutRegion
      (injectionKeys ["region"; "topic"] (childKeysOf regionShape) [])
      {[ "region" := "US" ]} !! "region" = Some "US".
Proof.
  assert (Hin : "region" ∈ injectionKeys ["region"; "topic"] (childKeysOf regionShape) []).
  { vm_compute. left. }
  assert (Hnone : parentWithoutRegion !! "region" = None).
  { vm_compute. reflexivity. }
  split; [reflexivity|]. split; [reflexivity|]. split; [reflexivity|].
  split; [exact Hin|]. split; [exact Hnone|].
  destruct (processChildAgentFunction_absent_parent_value noStringify childStore
              1%positive 1%positive childCallable regionShape parentWithoutRegion
              ["region"; "topic"] None routingAllowed "region"
              eq_refl eq_refl eq_refl Hin Hnone)
    as (processed & st' & f' & _ & _ & _ & _ & _ & Hkept & _).
  rewrite Hkept. reflexivity.
Defined.

Lemma processChildAgentFunction_schema_skips_model_routing_witness :
  functions childStore !! 1%positive = Some childCallable
  ∧ parameters childCallable = Some 1%positive
  ∧ schemas childStore !! 1%positive = Some regionShape
  ∧ injectionKeys [] (childKeysOf regionShape) [] = []
  ∧ ∃ processed st' f',
      processChildAgentFunction noStringify 1%positive ∅ [] (Some someModels)
        routingAllowed childStore = (Ok processed, st')
      ∧ functions st' !! processed = Some f'
      ∧ parameters f' = Some 1%positive
      ∧ schemas st' !! 1%positive = Some regionShape
      ∧ properties regionShape ≫= (.!! "model") = None.
Proof.
  split; [reflexivity|]. split; [reflexivity|]. split; [reflexivity|].
  split; [reflexivity|].
  destruct (processChildAgentFunction_schema_skips_model_routing noStringify childStore
              1%positive 1%positive childCallable regionShape ∅ [] (Some someModels)
              routingAllowed eq_refl eq_refl eq_refl)
    as (processed & shapeRef & st' & f' & shape' & Hrun & Hf' & Hp & Hs & _ & Hsame).
  destruct Hsame as (-> & -> & -> & Hschemas); [reflexivity|].
  exists processed, st', childCallable.
  split; [exact Hrun|]. split; [exact Hf'|]. split; [reflexivity|].
  split; [exact Hs|]. reflexivity.
Defined.

Lemma newAxAgent_validation_witness :
  (Ok "sig" : outcome string) = Ok "sig"
  ∧ ∃ agent,
      (newAxAgent (λ _ : string, Ok "sig") (λ _ s, s) (λ _ : string, regionShape)
         (λ _ : unit, None) "forward" (λ _ _, tt) (λ _ g, g)
         boundaryArgs None childStore).1 = Ok agent
      ∧ agent_name agent = "agent".
Proof.
  split; [reflexivity|].
  destruct (newAxAgent_validation (λ _ : string, Ok "sig") (λ _ s, s)
              (λ _ : string, regionShape) (λ _ : unit, None) "forward"
              (λ _ _, tt) (λ _ g, g) boundaryArgs None childStore "sig" eq_refl)
    as (_ & _ & _ & Hok & _).
  destruct Hok as (agent & Hagent & Hname & _).
  - vm_compute. lia.
  - vm_compute. lia.
  - exists agent. split; [exact Hagent|exact Hname].
Defined.

(** *** Further concrete inputs *)

Definition schemalessCallable : @AxFunction string string unit :=
  {| name := "tellJoke";
     func_description := "Tells a joke, takes no argument";
     parameters := None;
     func := λ _ _, ([], "joke") |}.

Definition schemalessStore : @store string string unit :=
  {| schemas := ∅; functions := {[ 1%positive := schemalessCallable ]} |}.

Definition ownCallable : @AxFunction string string unit :=
  {| name := "planner";
     func_description := "Plans a trip from the weather";
     parameters := Some 1%positive;
     func := λ _ _, ([], "forward") |}.

Definition agentStore : @store string string unit :=
  {| schemas := {[ 1%positive := regionShape ]};
     functions := {[ 2%positive := ownCallable ]} |}.

Definition weatherChild : @AxAgentic string string unit :=
  {| agentic_function := childCallable;
     getFeatures := {| canConfigureSmartModelRouting := true;
                       excludeFieldsFromPassthrough := [] |} |}.

Definition plannerAgent : @AxAgent string string unit unit string unit :=
  {| agent_ai := None; agent_signature := "region -> plan"; agent_program := tt;
     agent_functions := None; agent_agents := Some [weatherChild];
     agent_disableSmartModelRouting := None; agent_excluded := [];
     agent_name := "planner";
     agent_description := "Plans a trip from the weather";
     agent_subAgentList := Some "lookupWeather";
     agent_func := 2%positive |}.

Lemma toCamelCase_single_word_witness :
  string_forall is_alnum "WeatherBot2" = true
  ∧ toCamelCase "WeatherBot2" = "weatherbot2".
Proof.
  split; [reflexivity|].
  rewrite (toCamelCase_single_word "WeatherBot2" eq_refl). reflexivity.
Defined.

Lemma removePropertiesFromSchema_twice_witness :
  schemas childStore !! 1%positive = Some regionShape
  ∧ ∃ first second once st1 st2 st3 s2,
      removePropertiesFromSchema 1%positive ["region"] childStore = (Ok first, st1)
      ∧ removePropertiesFromSchema first ["query"] st1 = (Ok second, st2)
      ∧ removePropertiesFromSchema 1%positive ["region"; "query"] childStore
        = (Ok once, st3)
      ∧ schemas st2 !! second = Some s2
      ∧ schemas st3 !! once = Some s2.
Proof.
  split; [reflexivity|].
  destruct (removePropertiesFromSchema_twice childStore 1%positive regionShape
              ["region"] ["query"] eq_refl)
    as (first & second & once & st1 & st2 & st3 & s2 & H1 & H2 & H3 & H4 & H5 & _).
  by exists first, second, once, st1, st2, st3, s2.
Defined.

Lemma add_then_remove_model_witness :
  schemas childStore !! 1%positive = Some regionShape
  ∧ ("model" ∉ ["region"; "query"])
  ∧ ∃ added removed st1 st2,
      addModelParameter (Some 1%positive) someModels childStore = (Ok added, st1)
      ∧ removePropertiesFromSchema added ["model"] st1 = (Ok removed, st2)
      ∧ schemas st2 !! removed = Some regionShape.
Proof.
  assert (Hnot : "model" ∉ ["region"; "query"]).
  { intros H. apply elem_of_cons in H as [H|H]; [discriminate|].
    apply elem_of_cons in H as [H|H]; [discriminate|]. by apply elem_of_nil in H. }
  split; [reflexivity|]. split; [exact Hnot|].
  exact (add_then_remove_model childStore 1%positive regionShape
           {[ "region" := stringSchema; "query" := stringSchema ]}
           ["region"; "query"] someModels eq_refl eq_refl eq_refl eq_refl Hnot).
Defined.

Lemma addModelParameter_creates_only_witness :
  inputShape childStore (Some 1%positive) = Some regionShape
  ∧ ∃ result st',
      addModelParameter (Some 1%positive) someModels childStore = (Ok result, st')
      ∧ schemas st' !! 1%positive = Some regionShape
      ∧ functions st' = functions childStore.
Proof.
  split; [reflexivity|].
  destruct (addModelParameter_creates_only childStore (Some 1%positive) regionShape
              someModels eq_refl) as (result & st' & Hrun & _ & _ & Hkeep & Hfun).
  exists result, st'. split; [exact Hrun|]. split; [|exact Hfun].
  apply Hkeep. reflexivity.
Defined.


Lemma processChildAgentFunction_without_parameters_witness :
  functions schemalessStore !! 1%positive = Some schemalessCallable
  ∧ parameters schemalessCallable = None
  ∧ ∃ processed st' f' shapeRef shape,
      processChildAgentFunction noStringify 1%positive ∅ [] (Some someModels)
        routingAllowed schemalessStore = (Ok processed, st')
      ∧ functions st' !! processed = Some f'
      ∧ parameters f' = Some shapeRef
      ∧ schemas st' !! shapeRef = Some shape
      ∧ required shape = Some ["model"].
Proof.
  split; [reflexivity|]. split; [reflexivity|].
  destruct (processChildAgentFunction_without_parameters noStringify schemalessStore
              1%positive schemalessCallable ∅ [] (Some someModels) routingAllowed
              eq_refl eq_refl)
    as (processed & st' & f' & Hrun & Hf' & _ & _ & _ & _ & _ & Hrouted).
  destruct (Hrouted eq_refl) as (models & shapeRef & shape & _ & Hp & Hs & _ & Hreq & _).
  by exists processed, st', f', shapeRef, shape.
Defined.

Lemma newAxAgent_own_callable_witness :
  (Ok "sig" : outcome string) = Ok "sig"
  ∧ (5 ≤ String.length (arg_name boundaryArgs))%nat
  ∧ (20 ≤ String.length (arg_description boundaryArgs))%nat
  ∧ ∃ agent st' f,
      newAxAgent (λ _ : string, Ok "sig") (λ _ s, s) (λ _ : string, regionShape)
        (λ _ : unit, None) "forward" (λ _ _, tt) (λ _ g, g)
        boundaryArgs None childStore = (Ok agent, st')
      ∧ functions st' !! agent_func agent = Some f
      ∧ name f = "agent".
Proof.
  assert (Hn : (5 ≤ String.length (arg_name boundaryArgs))%nat) by (vm_compute; lia).
  assert (Hd : (20 ≤ String.length (arg_description boundaryArgs))%nat)
    by (vm_compute; lia).
  split; [reflexivity|]. split; [exact Hn|]. split; [exact Hd|].
  destruct (newAxAgent_own_callable (λ _ : string, Ok "sig") (λ _ s, s)
              (λ _ : string, regionShape) (λ _ : unit, None) "forward"
              (λ _ _, tt) (λ _ g, g) boundaryArgs None childStore "sig" eq_refl Hn Hd)
    as (agent & st' & f & shapeRef & shape & Hrun & Hf & Hname & _).
  exists agent, st', f. split; [exact Hrun|]. split; [exact Hf|].
  rewrite Hname. reflexivity.
Defined.

Lemma AxAgent_setDescription_synchronised_witness :
  functions agentStore !! agent_func plannerAgent = Some ownCallable
  ∧ (20 ≤ String.length "Plans trips around the weather")%nat
  ∧ ∃ self' st' f',
      AxAgent_setDescription (λ _ s, s) "Plans trips around the weather"
        plannerAgent agentStore = (Ok self', st')
      ∧ functions st' !! agent_func self' = Some f'
      ∧ func_description f' = agent_description self'.
Proof.
  assert (Hlen : (20 ≤ String.length "Plans trips around the weather")%nat)
    by (vm_compute; lia).
  split; [reflexivity|]. split; [exact Hlen|].
  destruct (AxAgent_setDescription_synchronised (λ _ s, s)
              "Plans trips around the weather" plannerAgent agentStore ownCallable
              eq_refl) as [_ Hok].
  destruct (Hok Hlen) as (self' & st' & Hrun & Hdesc & _ & Hfunc & _ & Hf & _).
  eexists self', st', _. split; [exact Hrun|].
  split; [rewrite Hfunc; exact Hf|]. by rewrite Hdesc.
Defined.

Lemma init_assembles_functions_witness :
  Forall (λ a, liveParameters agentStore (agentic_function a)) [weatherChild]
  ∧ ∃ agentFuncs st',
      init noStringify (λ _ : unit, None) (λ _ : string, ["region"]) (λ _ : unit, None)
        plannerAgent tt parentWithRegion None agentStore
      = (Ok (tt, agentFuncs), st')
      ∧ length agentFuncs = 1.
Proof.
  assert (Hlive : Forall (λ a, liveParameters agentStore (agentic_function a))
                    [weatherChild]).
  { constructor; [|constructor]. by eexists. }
  split; [exact Hlive|].
  destruct (init_assembles_functions noStringify (λ _ : unit, None)
              (λ _ : string, ["region"]) (λ _ : unit, None)
              plannerAgent tt parentWithRegion None agentStore Hlive)
    as (agentFuncs & st' & Hrun & Hlen & _).
  exists agentFuncs, st'. split; [exact Hrun|exact Hlen].
Defined.

End Agent.

Module Text.

(** *** Strings *)

(** White space removed by [String.prototype.trim], among 8-bit code
    units: tab, line feed, vertical tab, form feed, carriage return,
    space and no-break space. *)
Definition is_space (c : ascii) : bool :=
  let n := nat_of_ascii c in
  ((9 <=? n) && (n <=? 13) || (n =? 32) || (n =? 160))%nat.

Fixpoint trim_start (s : string) : string :=
  match s with
  | EmptyString => EmptyString
  | String c rest => if is_space c then trim_start rest else s
  end.

(** Drops the white space at the end; the last white-space run is the one
    after which nothing but white space follows. *)
Fixpoint trim_end (s : string) : string :=
  match s with
  | EmptyString => EmptyString
  | String c rest =>
      match trim_end rest with
      | EmptyString => if is_space c then EmptyString else String c EmptyString
      | kept => String c kept
      end
  end.

Definition trim (s : string) : string := trim_end (trim_start s).

(** [`${n}`] for a step count. *)
Definition show_nat (n : nat) : string := NilEmpty.string_of_uint (Nat.to_uint n).

(** *** Data *)

Record TextResult : Type := { text : option string }.

Record FunctionExec : Type := {
  exec_name : string;
  exec_result : option string;
}.

Record ParsingError : Type := {
  error : string;
  data : string;
}.

Section Model.

(** [T]: the decoded value; [ResponseSchema]: the schema in
    [responseConfig]; [PromptFunction]: an entry of the configured
    functions; [Usage]: embedding usage figures; [KeyValues]: the map
    [stringToMap] builds. *)
Context {T ResponseSchema PromptFunction Usage KeyValues : Type}.

Record GenerateTextResponse : Type := {
  results : list TextResult;
  embedModelUsage : option Usage;
}.

Record ResponseConfig : Type := {
  keyValue : option bool;
  schema : option ResponseSchema;
}.

(** [PromptConfig]; [functions] refers to an array object. *)
Record PromptConfig : Type := {
  stopSequences : list string;
  queryPrefix : option string;
  responsePrefix : option string;
  functions : option loc;
  responseConfig : option ResponseConfig;
  conf_debug : option bool;
}.

(** The response part of a trace and the trace itself. *)
Record TraceResponse : Type := {
  response_results : list TextResult;
  trace_functions : option (list FunctionExec);
  trace_embedModelUsage : option Usage;
  parsingError : option ParsingError;
}.

Record AIGenerateTextTrace : Type := {
  request_prompt : string;
  response : option TraceResponse;
  finalError : option string;
}.

(** Modelled from the spec: the wrapper around the completion service
    ([wrap.js] is not among the sources).  It keeps the prompts sent so
    far, oldest first, and one trace per answered call, newest first;
    [getTrace()] is the newest trace. *)
Record AI : Type := {
  calls : list string;
  traces : list AIGenerateTextTrace;
}.

(** Modelled from the spec: conversation memory ([memory.js] is not among
    the sources), an append-only sequence of text fragments, each under
    an optional session key. *)
Abbreviation Memory := (list (option string * string)).

(** What a value decodes to: [fvalue] in [_generateHandler]. *)
Inductive Decoded : Type :=
  | DecodedMap (m : KeyValues)
  | DecodedObject (t : T)
  | DecodedText (s : string).

(** [AIPrompt]: [conf] refers to the configuration object. *)
Record AIPrompt : Type := {
  conf : loc;
  maxSteps : nat;
  debug : bool;
}.

Record state : Type := {
  configs : gmap loc PromptConfig;
  arrays : gmap loc (list PromptFunction);
  ai : AI;
  mem : Memory;
}.

Abbreviation Op := (M state).

(** The collaborators outside the sources at hand.  The completion
    service answers a prompt given the prompts it has seen before, or
    throws; [processFunction] may use the wrapper.  [stringToMap], a scan
    with a regular expression, is taken as a function from the text to
    the map or the error it throws. *)
Context (service : list string → string → PromptConfig → option string
                   → outcome GenerateTextResponse)
        (processFunction : string → list PromptFunction → AI → option string
                           → outcome FunctionExec * AI)
        (finalResultFunc : ResponseSchema → PromptFunction)
        (functionsToJSON : list PromptFunction → string)
        (stringToObject : string → ResponseSchema → outcome T)
        (stringToMap : string → outcome KeyValues).

(** [new AIPrompt(conf)] *)
Definition newAIPrompt (confRef : loc) : Op AIPrompt :=
  st ← get;
  match configs st !! confRef with
  | Some c => mret {| conf := confRef; maxSteps := 20;
                      debug := default false (conf_debug c) |}
  | None => throw "dangling configuration reference"
  end.

Definition setMaxSteps (n : nat) (self : AIPrompt) : AIPrompt :=
  {| conf := conf self; maxSteps := n; debug := debug self |}.

(** *** Store and collaborator primitives *)

Definition readConfig (l : loc) : Op PromptConfig := λ st,
  match configs st !! l with
  | Some c => (Ok c, st)
  | None => (Thrown "dangling configuration reference", st)
  end.

Definition allocConfig (c : PromptConfig) : Op loc := λ st,
  let l := fresh (dom (configs st)) in
  (Ok l, {| configs := <[l := c]> (configs st); arrays := arrays st;
            ai := ai st; mem := mem st |}).

Definition readArray (l : loc) : Op (list PromptFunction) := λ st,
  match arrays st !! l with
  | Some fs => (Ok fs, st)
  | None => (Thrown "dangling array reference", st)
  end.

Definition allocArray (fs : list PromptFunction) : Op loc := λ st,
  let l := fresh (dom (arrays st)) in
  (Ok l, {| configs := configs st; arrays := <[l := fs]> (arrays st);
            ai := ai st; mem := mem st |}).

(** [functions.push(f)] *)
Definition push (l : loc) (f : PromptFunction) : Op unit :=
  modify (λ st, {| configs := configs st;
                   arrays := alter (λ fs, fs ++ [f])%list l (arrays st);
                   ai := ai st; mem := mem st |}).

Definition setAI (a : AI) (st : state) : state :=
  {| configs := configs st; arrays := arrays st; ai := a; mem := mem st |}.

(** Modelled from the spec: the wrapper after a call that was answered
    (the prompt is logged and a trace with the response is opened), and
    after one that failed. *)
Definition answered (prompt : string) (res : GenerateTextResponse) (a : AI) : AI :=
  {| calls := (calls a ++ [prompt])%list;
     traces := {| request_prompt := prompt;
                  response := Some {| response_results := results res;
                                      trace_functions := None;
                                      trace_embedModelUsage := None;
                                      parsingError := None |};
                  finalError := None |} :: traces a |}.

Definition unanswered (prompt : string) (a : AI) : AI :=
  {| calls := (calls a ++ [prompt])%list; traces := traces a |}.

(** Modelled from the spec: [ai.generate(prompt, conf, sessionId)] asks
    the service and records the exchange. *)
Definition ai_generate (prompt : string) (c : PromptConfig) (sessionId : option string)
    : Op GenerateTextResponse := λ st,
  match service (calls (ai st)) prompt c sessionId with
  | Ok res => (Ok res, setAI (answered prompt res (ai st)) st)
  | Thrown e => (Thrown e, setAI (unanswered prompt (ai st)) st)
  end.

(** [const trace = ai.getTrace(); if (trace && trace.response) ...]: a
    write to the response of the newest trace, if there is one. *)
Definition updateTraceResponse (f : TraceResponse → TraceResponse) : Op unit :=
  modify (λ st,
    match traces (ai st) with
    | trace :: older =>
        match response trace with
        | Some r =>
            setAI {| calls := calls (ai st);
                     traces := {| request_prompt := request_prompt trace;
                                  response := Some (f r);
                                  finalError := finalError trace |} :: older |} st
        | None => st
        end
    | [] => st
    end).

(** Modelled from the spec: [mem.add(text, sessionId)] appends. *)
Definition mem_add (fragment : string) (sessionId : option string) : Op unit :=
  modify (λ st, {| configs := configs st; arrays := arrays st; ai := ai st;
                   mem := (mem st ++ [(sessionId, fragment)])%list |}).

(** Modelled from the spec: [mem.history(sessionId)] is the session's
    fragments in order, joined. *)
Definition history (m : Memory) (sessionId : option string) : string :=
  join EmptyString (map snd (filter (λ e, e.1 = sessionId) m)).

Definition mem_history (sessionId : option string) : Op string :=
  st ← get; mret (history (mem st) sessionId).

(** [processFunction(value, functions, ai, sessionId)] *)
Definition callProcessFunction (value : string) (functionsRef : loc)
    (sessionId : option string) : Op FunctionExec := λ st,
  match arrays st !! functionsRef with
  | Some fs =>
      let '(r, a) := processFunction value fs (ai st) sessionId in
      (r, setAI a st)
  | None => (Thrown "dangling array reference", st)
  end.

(** [res.results.at(0)?.text?.trim() ?? ''] *)
Definition firstText (res : GenerateTextResponse) : string :=
  match results res with
  | r :: _ => match text r with Some t => trim t | None => EmptyString end
  | [] => EmptyString
  end.

(** *** [AIPrompt] *)

Definition functionsSchema (self : AIPrompt) : Op string :=
  c ← readConfig (conf self);
  configured ← match functions c with
               | Some l => readArray l
               | None => mret []
               end;
  let functions := match responseConfig c ≫= schema with
                   | Some s => (configured ++ [finalResultFunc s])%list
                   | None => configured
                   end in
  mret (functionsToJSON functions).

Definition prompt (query : string) (history : string) : string :=
  query +:+ "
" +:+ history +:+ "
".

Definition _generateDefault (self : AIPrompt) (query : string)
    (sessionId : option string) : Op (GenerateTextResponse * string) :=
  h ← mem_history sessionId;
  let p := prompt query h in
  c ← readConfig (conf self);
  res ← ai_generate p c sessionId;
  let value := firstText res in
  if (String.length value =? 0)%nat then throw "Empty response received"
  else
    let mval := [default EmptyString (queryPrefix c); query;
                 default EmptyString (responsePrefix c); value] in
    mem_add (join EmptyString mval) sessionId ;;
    mret (res, value).

Definition fixSyntax (self : AIPrompt) (error : string) (value : string)
    (sessionId : option string) : Op string :=
  h ← mem_history None;
  let p := h +:+ "
Syntax Error: " +:+ error +:+ "
" +:+ value in
  c ← readConfig (conf self);
  res ← ai_generate p c sessionId;
  let fixedValue := firstText res in
  if (String.length fixedValue =? 0)%nat then throw "Empty response received"
  else mret fixedValue.

(** The loop's write to the trace: the execution is appended to
    [trace.response.functions] and the usage figures are copied. *)
Definition recordFunctionExec (funcExec : FunctionExec) (res : GenerateTextResponse)
    : Op unit :=
  updateTraceResponse (λ r,
    {| response_results := response_results r;
       trace_functions := Some (default [] (trace_functions r) ++ [funcExec])%list;
       trace_embedModelUsage := embedModelUsage res;
       parsingError := parsingError r |}).

(** One pass through the body of the loop of [_generateWithFunctions]:
    either the [return] inside the loop or falling through to the next
    iteration with [previousValue = value].  In [step],
    [funcExec.name.localeCompare('finalResult') === 0] is read as equality
    of the two names. *)
Inductive StepResult : Type :=
  | Final (res : GenerateTextResponse) (output : string)
  | Continue (value : string).

(** [previousValue && value === previousValue]; an absent or empty
    previous value is falsy. *)
Definition repeats (previousValue : option string) (value : string) : bool :=
  match previousValue with
  | Some previous => negb (String.eqb previous EmptyString) && String.eqb value previous
  | None => false
  end.

Definition step (self : AIPrompt) (c : PromptConfig) (functionsRef : loc)
    (query : string) (sessionId : option string) (previousValue : option string)
    : Op StepResult :=
  h ← mem_history sessionId;
  let p := prompt query h in
  res ← ai_generate p c sessionId;
  let value := firstText res in
  if repeats previousValue value then throw "Duplicate response received"
  else if (String.length value =? 0)%nat then throw "Empty response received"
  else
    funcExec ← callProcessFunction value functionsRef sessionId;
    let mval := ["
"; value; "
Result: "; default EmptyString (exec_result funcExec)] in
    mem_add (join EmptyString mval) sessionId ;;
    recordFunctionExec funcExec res ;;
    if String.eqb (exec_name funcExec) "finalResult"
    then mret (Final res (default EmptyString (exec_result funcExec)))
    else mret (Continue value).

(** The loop [for (let i = 0; i < this.maxSteps; i++)], by the number of
    iterations left. *)
Fixpoint steps (self : AIPrompt) (c : PromptConfig) (functionsRef : loc)
    (query : string) (sessionId : option string) (remaining : nat)
    (previousValue : option string) : Op (GenerateTextResponse * string) :=
  match remaining with
  | 0 => throw ("max " +:+ show_nat (maxSteps self) +:+ " steps allowed")
  | S remaining' =>
      r ← step self c functionsRef query sessionId previousValue;
      match r with
      | Final res output => mret (res, output)
      | Continue value =>
          steps self c functionsRef query sessionId remaining' (Some value)
      end
  end.

(** [{ ...this.conf, stopSequences: [...this.conf.stopSequences, 'Result:'] }] *)
Definition withResultStop (c : PromptConfig) : PromptConfig :=
  {| stopSequences := (stopSequences c ++ ["Result:"])%list;
     queryPrefix := queryPrefix c;
     responsePrefix := responsePrefix c;
     functions := functions c;
     responseConfig := responseConfig c;
     conf_debug := conf_debug c |}.

Definition _generateWithFunctions (self : AIPrompt) (query : string)
    (sessionId : option string) : Op (GenerateTextResponse * string) :=
  this_conf ← readConfig (conf self);
  let c := withResultStop this_conf in
  allocConfig c ;;
  functionsRef ← match functions c with
                 | Some l => mret l
                 | None => allocArray []
                 end;
  (match responseConfig c ≫= schema with
   | Some s => push functionsRef (finalResultFunc s)
   | None => mret tt
   end) ;;
  steps self c functionsRef query sessionId (maxSteps self) None.

(** The [catch] block's write: [trace.response.parsingError = ...]. *)
Definition recordParsingError (error : string) (value : string) : Op unit :=
  updateTraceResponse (λ r,
    {| response_results := response_results r;
       trace_functions := trace_functions r;
       trace_embedModelUsage := trace_embedModelUsage r;
       parsingError := Some {| error := error; data := value |} |}).

(** The [try] block of [_generateHandler]. *)
Definition decode (keyValue : option bool) (schema : option ResponseSchema)
    (value : string) : outcome Decoded :=
  if default false keyValue then
    match stringToMap value with
    | Ok m => Ok (DecodedMap m)
    | Thrown e => Thrown e
    end
  else
    match schema with
    | Some s =>
        match stringToObject value s with
        | Ok t => Ok (DecodedObject t)
        | Thrown e => Thrown e
        end
    | None => Ok (DecodedText value)
    end.

(** The loop [for (let i = 0; i < retryCount; i++)] of
    [_generateHandler], by the number of iterations left. *)
Fixpoint repairLoop (self : AIPrompt) (keyValue : option bool)
    (schema : option ResponseSchema) (sessionId : option string)
    (res : GenerateTextResponse) (retryCount : nat) (remaining : nat) (i : nat)
    (value : string) : Op (GenerateTextResponse * Decoded) :=
  match remaining with
  | 0 => throw "Unable to fix result syntax"
  | S remaining' =>
      match decode keyValue schema value with
      | Ok fvalue => mret (res, fvalue)
      | Thrown error =>
          recordParsingError error value ;;
          if (i <? retryCount - 1)%nat then
            repairLoop self keyValue schema sessionId res retryCount remaining' (S i) value
          else
            fixedValue ← fixSyntax self error value sessionId;
            repairLoop self keyValue schema sessionId res retryCount remaining' (S i)
              fixedValue
      end
  end.

Definition _generateHandler (self : AIPrompt) (query : string)
    (sessionId : option string) : Op (GenerateTextResponse * Decoded) :=
  c ← readConfig (conf self);
  let responseConfig := responseConfig c in
  let functions := functions c in
  let keyValue := responseConfig ≫= keyValue in
  let schema := responseConfig ≫= schema in
  configured ← match functions with
               | Some l => fs ← readArray l; mret (Some fs)
               | None => mret None
               end;
  '(res, value) ← match configured with
                  | Some fs =>
                      if (0 <? length fs)%nat
                      then _generateWithFunctions self query sessionId
                      else _generateDefault self query sessionId
                  | None => _generateDefault self query sessionId
                  end;
  let retryCount := 3 in
  repairLoop self keyValue schema sessionId res retryCount retryCount 0 value.

(** The state after [n] passes through the loop body that all fell
    through to the next iteration, with the value of the last one; [None]
    if one of them returned or threw. *)
Fixpoint continuing (self : AIPrompt) (c : PromptConfig) (functionsRef : loc)
    (query : string) (sessionId : option string) (n : nat)
    (previousValue : option string) (st : state) : option (option string * state) :=
  match n with
  | 0 => Some (previousValue, st)
  | S n' =>
      match step self c functionsRef query sessionId previousValue st with
      | (Ok (Continue value), st') =>
          continuing self c functionsRef query sessionId n' (Some value) st'
      | _ => None
      end
  end.

(** *** Notions used in the statements *)

(** The store of configuration and array objects is the same in both
    states. *)
Definition sameObjects (st st' : state) : Prop :=
  configs st' = configs st ∧ arrays st' = arrays st.

(** A computation that leaves those objects alone. *)
Definition keeps {A} (m : Op A) : Prop := ∀ st, sameObjects st (m st).2.


(** No callable is configured: [functions] is absent or an empty array. *)
Definition noCallables (st : state) (c : PromptConfig) : Prop :=
  match functions c with
  | Some l => arrays st !! l = Some []
  | None => True
  end.

(** The completion the service gives in state [st] for [query]. *)
Definition completion (c : PromptConfig) (query : string) (sessionId : option string)
    (st : state) : outcome GenerateTextResponse :=
  service (calls (ai st)) (prompt query (history (mem st) sessionId)) c sessionId.

(** The state once that completion has been answered with [res]. *)
Definition afterCompletion (query : string) (sessionId : option string)
    (res : GenerateTextResponse) (st : state) : state :=
  setAI (answered (prompt query (history (mem st) sessionId)) res (ai st)) st.

(** *** Frames *)

Lemma sameObjects_refl (st : state) : sameObjects st st.
Proof. done. Qed.

Lemma sameObjects_trans (st1 st2 st3 : state) :
  sameObjects st1 st2 → sameObjects st2 st3 → sameObjects st1 st3.
Proof. intros [H1 H2] [H3 H4]. split; congruence. Qed.

Lemma keeps_ret {A} (a : A) : keeps (mret a).
Proof. intros st. apply sameObjects_refl. Qed.

Lemma keeps_throw {A} (e : string) : keeps (throw (A := A) e).
Proof. intros st. apply sameObjects_refl. Qed.

Lemma keeps_bind {A B} (m : Op A) (f : A → Op B) :
  keeps m → (∀ a, keeps (f a)) → keeps (m ≫= f).
Proof.
  intros Hm Hf st. unfold mbind, M_bind. specialize (Hm st).
  destruct (m st) as [[a|e] st1]; simpl in *; [|done].
  eapply sameObjects_trans; [exact Hm|apply Hf].
Qed.

Lemma keeps_ai_generate p c sessionId : keeps (ai_generate p c sessionId).
Proof. intros st. unfold ai_generate. by destruct (service _ _ _ _). Qed.

Lemma keeps_updateTraceResponse f : keeps (updateTraceResponse f).
Proof.
  intros st. unfold updateTraceResponse, modify. simpl.
  destruct (traces (ai st)) as [|t ts]; [done|]. by destruct (response t).
Qed.

Lemma keeps_mem_add fragment sessionId : keeps (mem_add fragment sessionId).
Proof. done. Qed.

Lemma keeps_mem_history sessionId : keeps (mem_history sessionId).
Proof. done. Qed.

Lemma keeps_readConfig l : keeps (readConfig l).
Proof. intros st. unfold readConfig. by destruct (configs st !! l). Qed.

Lemma keeps_callProcessFunction value l sessionId :
  keeps (callProcessFunction value l sessionId).
Proof.
  intros st. unfold callProcessFunction. destruct (arrays st !! l); [|done].
  by destruct (processFunction _ _ _ _).
Qed.

Lemma keeps_fixSyntax self e value sessionId : keeps (fixSyntax self e value sessionId).
Proof.
  unfold fixSyntax. apply keeps_bind; [apply keeps_mem_history|intros h].
  apply keeps_bind; [apply keeps_readConfig|intros c].
  apply keeps_bind; [apply keeps_ai_generate|intros res].
  destruct (_ =? _)%nat; [apply keeps_throw|apply keeps_ret].
Qed.

Lemma keeps_step self c l query sessionId previousValue :
  keeps (step self c l query sessionId previousValue).
Proof.
  unfold step. apply keeps_bind; [apply keeps_mem_history|intros h].
  apply keeps_bind; [apply keeps_ai_generate|intros res].
  destruct (repeats _ _); [apply keeps_throw|].
  destruct (_ =? _)%nat; [apply keeps_throw|].
  apply keeps_bind; [apply keeps_callProcessFunction|intros fe].
  apply keeps_bind; [apply keeps_mem_add|intros _].
  apply keeps_bind; [apply keeps_updateTraceResponse|intros _].
  destruct (String.eqb _ _); apply keeps_ret.
Qed.

Lemma keeps_steps self c l query sessionId remaining previousValue :
  keeps (steps self c l query sessionId remaining previousValue).
Proof.
  revert previousValue. induction remaining as [|n IH]; intros previousValue; simpl.
  - apply keeps_throw.
  - apply keeps_bind; [apply keeps_step|intros [res out|v]]; [apply keeps_ret|apply IH].
Qed.

Lemma keeps_repairLoop self keyValue schema sessionId res retryCount remaining i value :
  keeps (repairLoop self keyValue schema sessionId res retryCount remaining i value).
Proof.
  revert i value. induction remaining as [|n IH]; intros i value; simpl.
  - apply keeps_throw.
  - destruct (decode _ _ _) as [fvalue|e]; [apply keeps_ret|].
    apply keeps_bind; [apply keeps_updateTraceResponse|intros _].
    destruct (_ <? _)%nat; [apply IH|].
    apply keeps_bind; [apply keeps_fixSyntax|intros fixed]. apply IH.
Qed.

(** *** What a run does to the configured functions *)

Lemma _generateWithFunctions_objects (self : AIPrompt) (query : string)
    (sessionId : option string) (st : state) (c : PromptConfig) (fl : loc)
    (fs : list PromptFunction) :
  configs st !! conf self = Some c →
  functions c = Some fl →
  arrays st !! fl = Some fs →
  let st' := (_generateWithFunctions self query sessionId st).2 in
  configs st' = <[fresh (dom (configs st)) := withResultStop c]> (configs st)
  ∧ arrays st' = match responseConfig c ≫= schema with
                 | Some s => <[fl := (fs ++ [finalResultFunc s])%list]> (arrays st)
                 | None => arrays st
                 end.
Proof.
  intros Hc Hfl Hfs. unfold _generateWithFunctions.
  erewrite bind_ok by (unfold readConfig; rewrite Hc; reflexivity).
  cbv zeta. erewrite bind_ok by reflexivity.
  change (functions (withResultStop c)) with (functions c). rewrite Hfl.
  erewrite bind_ok by reflexivity.
  change (responseConfig (withResultStop c)) with (responseConfig c).
  destruct (responseConfig c ≫= schema) as [s|];
    (erewrite bind_ok by reflexivity);
    match goal with
    | |- context [steps ?a ?b ?c ?d ?e ?f ?g ?st0] =>
        destruct (keeps_steps a b c d e f g st0) as [Hconf Harr]
    end;
    rewrite Hconf, Harr; simpl; [|done].
  split; [done|].
  apply map_eq. intros l. destruct (decide (l = fl)) as [->|Hne].
  - by rewrite lookup_alter_eq, lookup_insert_eq, Hfs.
  - by rewrite lookup_alter_ne, lookup_insert_ne.
Qed.

Lemma _generateHandler_objects (self : AIPrompt) (query : string)
    (sessionId : option string) (st : state) (c : PromptConfig) (fl : loc)
    (fs : list PromptFunction) :
  configs st !! conf self = Some c →
  functions c = Some fl →
  arrays st !! fl = Some fs →
  (0 < length fs)%nat →
  sameObjects (_generateWithFunctions self query sessionId st).2
              (_generateHandler self query sessionId st).2.
Proof.
  intros Hc Hfl Hfs Hlen. unfold _generateHandler.
  erewrite bind_ok by (unfold readConfig; rewrite Hc; reflexivity).
  cbv zeta. rewrite Hfl.
  erewrite bind_ok.
  2:{ erewrite bind_ok by (unfold readArray; rewrite Hfs; reflexivity). reflexivity. }
  apply Nat.ltb_lt in Hlen. cbv iota beta. rewrite Hlen.
  unfold mbind at 1. unfold M_bind.
  destruct (_generateWithFunctions self query sessionId st) as [[[res value]|e] st1];
    [|done].
  cbv beta iota. apply keeps_repairLoop.
Qed.

(** C10. With callables configured and an output schema declared, a run
    of the generation loop, however it ends, leaves one more
    [finalResult] callable at the end of the array the stored
    configuration refers to: the array is shared, not rebuilt, so a
    second run leaves two.  The stored configuration object, every other
    configuration object and every other array are as before the run. *)
Theorem _generateHandler_grows_configured_functions (self : AIPrompt)
    (st : state) (c : PromptConfig) (fl : loc) (fs : list PromptFunction)
    (s : ResponseSchema) (query query' : string) (sessionId sessionId' : option string) :
  configs st !! conf self = Some c →
  functions c = Some fl →
  arrays st !! fl = Some fs →
  (0 < length fs)%nat →
  responseConfig c ≫= schema = Some s →
  let st1 := (_generateHandler self query sessionId st).2 in
  let st2 := (_generateHandler self query' sessionId' st1).2 in
  arrays st1 !! fl = Some (fs ++ [finalResultFunc s])%list
  ∧ arrays st2 !! fl = Some (fs ++ [finalResultFunc s; finalResultFunc s])%list
  ∧ arrays (_generateWithFunctions self query sessionId st).2 !! fl
    = Some (fs ++ [finalResultFunc s])%list
  ∧ configs st1 !! conf self = Some c
  ∧ (∀ l c0, configs st !! l = Some c0 → configs st1 !! l = Some c0)
  ∧ (∀ l, l ≠ fl → arrays st1 !! l = arrays st !! l).
Proof.
  intros Hc Hfl Hfs Hlen Hs st1 st2.
  assert (Hone : ∀ q sid (stA : state) fsA,
            configs stA !! conf self = Some c → arrays stA !! fl = Some fsA →
            (0 < length fsA)%nat →
            let stB := (_generateHandler self q sid stA).2 in
            arrays stB = <[fl := (fsA ++ [finalResultFunc s])%list]> (arrays stA)
            ∧ configs stB = <[fresh (dom (configs stA)) := withResultStop c]> (configs stA)).
  { intros q sid stA fsA HcA HfsA HlenA stB.
    destruct (_generateHandler_objects self q sid stA c fl fsA HcA Hfl HfsA HlenA)
      as [Hconf Harr].
    destruct (_generateWithFunctions_objects self q sid stA c fl fsA HcA Hfl HfsA)
      as [Hconf' Harr'].
    rewrite Hs in Harr'. unfold stB. rewrite Hconf, Harr. done. }
  assert (Hkeep : ∀ (stA : state) l c0, configs stA !! l = Some c0 →
            <[fresh (dom (configs stA)) := withResultStop c]> (configs stA) !! l = Some c0).
  { intros stA l c0 Hl. rewrite lookup_insert_ne; [done|].
    intros <-. pose proof (is_fresh (dom (configs stA))) as Hfresh.
    apply Hfresh, elem_of_dom. eauto. }
  destruct (Hone query sessionId st fs Hc Hfs Hlen) as [Harr1 Hconf1].
  fold st1 in Harr1, Hconf1.
  assert (Hfs1 : arrays st1 !! fl = Some (fs ++ [finalResultFunc s])%list).
  { rewrite Harr1. apply lookup_insert_eq. }
  assert (Hc1 : configs st1 !! conf self = Some c).
  { rewrite Hconf1. by apply Hkeep. }
  split; [done|]. split.
  { destruct (Hone query' sessionId' st1 _ Hc1 Hfs1) as [Harr2 _].
    { rewrite length_app. simpl. lia. }
    fold st2 in Harr2. rewrite Harr2, lookup_insert_eq.
    by rewrite <- app_assoc. }
  split.
  { destruct (_generateWithFunctions_objects self query sessionId st c fl fs Hc Hfl Hfs)
      as [_ Harr']. rewrite Hs in Harr'. rewrite Harr'. apply lookup_insert_eq. }
  split; [done|]. split.
  - intros l c0 Hl. rewrite Hconf1. by apply Hkeep.
  - intros l Hne. rewrite Harr1. by rewrite lookup_insert_ne.
Qed.

(** *** The repair loop *)

Lemma calls_updateTraceResponse f (st : state) :
  calls (ai (updateTraceResponse f st).2) = calls (ai st).
Proof.
  unfold updateTraceResponse, modify. simpl.
  destruct (traces (ai st)) as [|t ts]; [done|]. by destruct (response t).
Qed.

Lemma recordParsingError_ok e value (st : state) :
  ∃ st', recordParsingError e value st = (Ok tt, st') ∧ calls (ai st') = calls (ai st).
Proof.
  eexists. split; [reflexivity|]. apply calls_updateTraceResponse.
Qed.

Lemma fixSyntax_calls self e value sessionId (st : state) :
  (length (calls (ai (fixSyntax self e value sessionId st).2))
   ≤ length (calls (ai st)) + 1)%nat.
Proof.
  unfold fixSyntax, mem_history, get, readConfig, ai_generate. run.
  destruct (configs st !! conf self) as [c|]; simpl; [|lia].
  destruct (service _ _ _ _) as [res|err]; simpl.
  - destruct (_ =? _)%nat; simpl; rewrite length_app; simpl; lia.
  - rewrite length_app. simpl. lia.
Qed.

(** C2, what the code does.  With no callable configured, once the
    first completion fails to decode, the same raw value is decoded
    three times, its parsing error being written to the trace's single
    [parsingError] field each time; the feedback completion is requested
    only after the third failure, and its answer is never decoded: the
    loop throws [Unable to fix result syntax] (or what [fixSyntax] threw).
    No run whose first value fails to decode returns a value, and it
    makes at most one further call to the service. *)
Theorem _generateHandler_never_decodes_the_fix (self : AIPrompt) (query : string)
    (sessionId : option string) (st st1 : state) (c : PromptConfig)
    (res : GenerateTextResponse) (value error : string) :
  configs st !! conf self = Some c →
  noCallables st c →
  _generateDefault self query sessionId st = (Ok (res, value), st1) →
  decode (responseConfig c ≫= keyValue) (responseConfig c ≫= schema) value
    = Thrown error →
  let st3 := ((recordParsingError error value ;;
               recordParsingError error value ;;
               recordParsingError error value) st1).2 in
  _generateHandler self query sessionId st
    = (match (fixSyntax self error value sessionId st3).1 with
       | Ok _ => Thrown "Unable to fix result syntax"
       | Thrown e => Thrown e
       end, (fixSyntax self error value sessionId st3).2)
  ∧ (∃ message, (_generateHandler self query sessionId st).1 = Thrown message)
  ∧ (length (calls (ai (_generateHandler self query sessionId st).2))
     ≤ length (calls (ai st1)) + 1)%nat.
Proof.
  intros Hc Hno Hdefault Hdecode st3.
  assert (Hrun : _generateHandler self query sessionId st
                 = (match (fixSyntax self error value sessionId st3).1 with
                    | Ok _ => Thrown "Unable to fix result syntax"
                    | Thrown e => Thrown e
                    end, (fixSyntax self error value sessionId st3).2)).
  { unfold _generateHandler.
    erewrite bind_ok by (unfold readConfig; rewrite Hc; reflexivity).
    cbv zeta.
    assert (Hfirst : ∃ configured,
              (match functions c with
               | Some l => fs ← readArray l; mret (Some fs)
               | None => mret None
               end) st = (Ok configured, st)
              ∧ (match configured with
                 | Some fs =>
                     if (0 <? length fs)%nat
                     then _generateWithFunctions self query sessionId
                     else _generateDefault self query sessionId
                 | None => _generateDefault self query sessionId
                 end) = _generateDefault self query sessionId).
    { unfold noCallables in Hno. destruct (functions c) as [l|].
      - exists (Some []). split; [|done].
        erewrite bind_ok by (unfold readArray; rewrite Hno; reflexivity). done.
      - by exists None. }
    destruct Hfirst as (configured & Hconfigured & Hbranch).
    erewrite bind_ok by exact Hconfigured. rewrite Hbranch.
    erewrite bind_ok by exact Hdefault. cbv beta iota zeta.
    unfold st3. simpl. rewrite Hdecode. unfold recordParsingError.
    unfold mbind, M_bind, modify, updateTraceResponse, throw. simpl.
    destruct (fixSyntax self error value sessionId _) as [[fixed|e] st4]; done. }
  split; [exact Hrun|]. rewrite Hrun. simpl. split.
  - destruct (fixSyntax self error value sessionId st3).1; eauto.
  - etransitivity; [apply fixSyntax_calls|].
    assert (Hcalls : calls (ai st3) = calls (ai st1)); [|by rewrite Hcalls].
    unfold st3.
    destruct (recordParsingError_ok error value st1) as (sa & Ha & <-).
    destruct (recordParsingError_ok error value sa) as (sb & Hb & <-).
    destruct (recordParsingError_ok error value sb) as (sc & Hc' & <-).
    erewrite bind_ok by exact Ha. erewrite bind_ok by exact Hb. by rewrite Hc'.
Qed.

(** *** The loop over function calls *)

Lemma step_completion (self : AIPrompt) (c : PromptConfig) (fl : loc) (query : string)
    (sessionId : option string) (previousValue : option string) (st : state) :
  step self c fl query sessionId previousValue st
  = match completion c query sessionId st with
    | Thrown e =>
        (Thrown e,
         setAI (unanswered (prompt query (history (mem st) sessionId)) (ai st)) st)
    | Ok res =>
        let st1 := afterCompletion query sessionId res st in
        let value := firstText res in
        if repeats previousValue value then (Thrown "Duplicate response received", st1)
        else if (String.length value =? 0)%nat then (Thrown "Empty response received", st1)
        else
          (funcExec ← callProcessFunction value fl sessionId;
           mem_add (join EmptyString ["
"; value; "
Result: "; default EmptyString (exec_result funcExec)]) sessionId ;;
           recordFunctionExec funcExec res ;;
           if String.eqb (exec_name funcExec) "finalResult"
           then mret (Final res (default EmptyString (exec_result funcExec)))
           else mret (Continue value)) st1
    end.
Proof.
  unfold step, completion, afterCompletion.
  erewrite bind_ok by reflexivity. cbv zeta.
  unfold ai_generate at 1. unfold mbind at 1. unfold M_bind.
  destruct (service _ _ _ _) as [res|e]; [|done].
  destruct (repeats _ _); [done|]. by destruct (_ =? _)%nat.
Qed.

Lemma repeats_empty (previousValue : option string) : repeats previousValue EmptyString = false.
Proof.
  destruct previousValue as [p|]; [|done]. simpl.
  destruct p; [done|]. by rewrite andb_false_r.
Qed.

Lemma repeats_same (value : string) : value ≠ EmptyString → repeats (Some value) value = true.
Proof.
  intros Hne. simpl. rewrite String.eqb_refl, andb_true_r.
  apply negb_true_iff. by apply String.eqb_neq.
Qed.

Lemma length_zero_empty (s : string) : (String.length s =? 0)%nat = true ↔ s = EmptyString.
Proof.
  rewrite Nat.eqb_eq. destruct s; simpl; split; intros H; try done.
Qed.

Lemma step_Continue (self : AIPrompt) (c : PromptConfig) (fl : loc) (query : string)
    (sessionId : option string) (previousValue : option string) (st st' : state)
    (value : string) :
  step self c fl query sessionId previousValue st = (Ok (Continue value), st') →
  ∃ res, completion c query sessionId st = Ok res ∧ firstText res = value ∧ value ≠ EmptyString.
Proof.
  rewrite step_completion.
  destruct (completion c query sessionId st) as [res|e]; [|done].
  cbv zeta. destruct (repeats _ _); [done|].
  destruct (_ =? _)%nat eqn:Hlen; [done|].
  intros Hrest. exists res. split; [done|].
  assert (Hne : firstText res ≠ EmptyString).
  { intros Heq. apply length_zero_empty in Heq. congruence. }
  unfold mbind, M_bind in Hrest.
  destruct (callProcessFunction _ _ _ _) as [[fe|e] s1]; [|done].
  simpl in Hrest.
  destruct (String.eqb (exec_name fe) "finalResult"); [done|].
  injection Hrest as ? ?. by subst.
Qed.

Lemma steps_exhausted (self : AIPrompt) (c : PromptConfig) (fl : loc) (query : string)
    (sessionId : option string) (remaining : nat) (previousValue last : option string)
    (st st' : state) :
  continuing self c fl query sessionId remaining previousValue st = Some (last, st') →
  steps self c fl query sessionId remaining previousValue st
  = (Thrown ("max " +:+ show_nat (maxSteps self) +:+ " steps allowed"), st').
Proof.
  revert previousValue st. induction remaining as [|n IH]; intros previousValue st.
  - cbn [continuing steps]. intros [= <- <-]. reflexivity.
  - cbn [continuing steps].
    destruct (step self c fl query sessionId previousValue st) as [[[res out|v]|e] s1] eqn:Hstep;
      try done.
    intros Hcont. erewrite bind_ok by exact Hstep. by apply IH.
Qed.

(** C3. In the loop over function calls, with the completion of a step
    trimmed: an empty completion makes the step throw [Empty response
    received]; a completion equal to the value the step before passed on
    (which is that step's completion, and not empty) makes it throw
    [Duplicate response received]; when every iteration falls through to
    the next, the loop throws [max N steps allowed] for its [maxSteps] N,
    which is 20 for a prompt as constructed; and a step whose executed
    function is named [finalResult] returns the completion with that
    function's result (the empty string if it has none).  [_generateWithFunctions]
    is this loop, run for [maxSteps] iterations with no previous value on
    the copied configuration. *)
Theorem steps_terminal_conditions (self : AIPrompt) (c : PromptConfig) (fl : loc)
    (query : string) (sessionId : option string) :
  (∀ remaining previousValue st res,
     completion c query sessionId st = Ok res →
     firstText res = EmptyString →
     steps self c fl query sessionId (S remaining) previousValue st
     = (Thrown "Empty response received", afterCompletion query sessionId res st))
  ∧ (∀ remaining previousValue st value st1 res,
       step self c fl query sessionId previousValue st = (Ok (Continue value), st1) →
       completion c query sessionId st1 = Ok res →
       firstText res = value →
       steps self c fl query sessionId (S (S remaining)) previousValue st
       = (Thrown "Duplicate response received", afterCompletion query sessionId res st1))
  ∧ (∀ previousValue st value st1,
       step self c fl query sessionId previousValue st = (Ok (Continue value), st1) →
       ∃ res, completion c query sessionId st = Ok res
              ∧ firstText res = value ∧ value ≠ EmptyString)
  ∧ (∀ remaining previousValue last st st',
       continuing self c fl query sessionId remaining previousValue st = Some (last, st') →
       steps self c fl query sessionId remaining previousValue st
       = (Thrown ("max " +:+ show_nat (maxSteps self) +:+ " steps allowed"), st'))
  ∧ (maxSteps self = 20 →
     ∀ last st st',
       continuing self c fl query sessionId (maxSteps self) None st = Some (last, st') →
       steps self c fl query sessionId (maxSteps self) None st
       = (Thrown "max 20 steps allowed", st'))
  ∧ (∀ remaining previousValue st res fs funcExec a',
       completion c query sessionId st = Ok res →
       repeats previousValue (firstText res) = false →
       firstText res ≠ EmptyString →
       arrays st !! fl = Some fs →
       processFunction (firstText res) fs (ai (afterCompletion query sessionId res st))
         sessionId = (Ok funcExec, a') →
       exec_name funcExec = "finalResult" →
       ∃ st', steps self c fl query sessionId (S remaining) previousValue st
              = (Ok (res, default EmptyString (exec_result funcExec)), st'))
  ∧ (∀ st c0 fs,
       configs st !! conf self = Some c0 →
       functions c0 = Some fl →
       arrays st !! fl = Some fs →
       c = withResultStop c0 →
       ∃ st0, _generateWithFunctions self query sessionId st
              = steps self c fl query sessionId (maxSteps self) None st0)
  ∧ (∀ confRef st self0 st0,
       newAIPrompt confRef st = (Ok self0, st0) → maxSteps self0 = 20).
Proof.
  split.
  { intros remaining previousValue st res Hres Hempty. cbn [steps].
    apply bind_thrown. rewrite step_completion, Hres. cbv zeta.
    rewrite Hempty, repeats_empty. reflexivity. }
  split.
  { intros remaining previousValue st value st1 res Hstep Hres Hvalue.
    destruct (step_Continue _ _ _ _ _ _ _ _ _ Hstep) as (res1 & _ & _ & Hne).
    cbn [steps]. erewrite bind_ok by exact Hstep.
    apply bind_thrown. rewrite step_completion, Hres. cbv zeta.
    by rewrite Hvalue, repeats_same. }
  split; [intros previousValue st value st1; apply step_Continue|].
  split; [intros remaining previousValue last st st'; apply steps_exhausted|].
  split.
  { intros Hmax last st st' Hcont.
    rewrite (steps_exhausted _ _ _ _ _ _ _ _ _ _ Hcont). by rewrite Hmax. }
  split.
  { intros remaining previousValue st res fs fe a' Hres Hrep Hne Hfs Hproc Hname.
    assert (Hstep : ∃ st', step self c fl query sessionId previousValue st
                           = (Ok (Final res (default EmptyString (exec_result fe))), st')).
    { rewrite step_completion, Hres. cbv zeta. rewrite Hrep.
      destruct (String.length (firstText res) =? 0)%nat eqn:Hlen.
      { apply length_zero_empty in Hlen. done. }
      erewrite bind_ok.
      2:{ unfold callProcessFunction.
          change (arrays (afterCompletion query sessionId res st)) with (arrays st).
          rewrite Hfs, Hproc. reflexivity. }
      erewrite bind_ok by reflexivity. erewrite bind_ok by reflexivity.
      rewrite Hname. by eexists. }
    destruct Hstep as (st' & Hstep). exists st'.
    cbn [steps]. erewrite bind_ok by exact Hstep. reflexivity. }
  split.
  { intros st c0 fs Hc0 Hfl Hfs ->. unfold _generateWithFunctions.
    erewrite bind_ok by (unfold readConfig; rewrite Hc0; reflexivity).
    cbv zeta. erewrite bind_ok by reflexivity.
    change (functions (withResultStop c0)) with (functions c0). rewrite Hfl.
    erewrite bind_ok by reflexivity.
    destruct (responseConfig (withResultStop c0) ≫= schema) as [s|];
      (erewrite bind_ok by reflexivity); eauto. }
  intros confRef st self0 st0. unfold newAIPrompt, get. run.
  destruct (configs st !! confRef); [|done]. by intros [= <- _].
Qed.

(** *** Single completions *)

Lemma _generateDefault_answered (self : AIPrompt) (query : string)
    (sessionId : option string) (st : state) (c : PromptConfig)
    (res : GenerateTextResponse) :
  configs st !! conf self = Some c →
  completion c query sessionId st = Ok res →
  firstText res ≠ EmptyString →
  ∃ st', _generateDefault self query sessionId st = (Ok (res, firstText res), st')
         ∧ calls (ai st')
           = (calls (ai st) ++ [prompt query (history (mem st) sessionId)])%list
         ∧ mem st' = (mem st ++ [(sessionId,
                                  join EmptyString [default EmptyString (queryPrefix c);
                                                    query;
                                                    default EmptyString (responsePrefix c);
                                                    firstText res])])%list.
Proof.
  intros Hc Hres Hne. unfold _generateDefault.
  erewrite bind_ok by reflexivity. cbv zeta.
  erewrite bind_ok by (unfold readConfig; rewrite Hc; reflexivity).
  erewrite bind_ok.
  2:{ unfold ai_generate. unfold completion in Hres. rewrite Hres. reflexivity. }
  destruct (String.length (firstText res) =? 0)%nat eqn:Hlen.
  { apply length_zero_empty in Hlen. done. }
  erewrite bind_ok by reflexivity. eexists. split; [reflexivity|]. done.
Qed.

(** X12. [_generateDefault] sends one prompt, the query followed by the
    session's history.  If the service throws, or answers with nothing
    but white space ([Empty response received]), memory is left as it
    was.  Otherwise the trimmed answer is returned and memory gains one
    fragment under the session: the query and the answer, each after its
    configured prefix. *)
Theorem _generateDefault_outcomes (self : AIPrompt) (query : string)
    (sessionId : option string) (st : state) (c : PromptConfig) :
  configs st !! conf self = Some c →
  let r := _generateDefault self query sessionId st in
  calls (ai r.2) = (calls (ai st) ++ [prompt query (history (mem st) sessionId)])%list
  ∧ sameObjects st r.2
  ∧ (∀ e, completion c query sessionId st = Thrown e →
       r.1 = Thrown e ∧ mem r.2 = mem st)
  ∧ (∀ res, completion c query sessionId st = Ok res → firstText res = EmptyString →
       r.1 = Thrown "Empty response received" ∧ mem r.2 = mem st)
  ∧ (∀ res, completion c query sessionId st = Ok res → firstText res ≠ EmptyString →
       r.1 = Ok (res, firstText res)
       ∧ mem r.2 = (mem st ++ [(sessionId,
                                join EmptyString [default EmptyString (queryPrefix c); query;
                                                  default EmptyString (responsePrefix c);
                                                  firstText res])])%list).
Proof.
  intros Hc r. unfold r, _generateDefault, completion.
  erewrite bind_ok by reflexivity. cbv zeta.
  erewrite bind_ok by (unfold readConfig; rewrite Hc; reflexivity).
  unfold ai_generate at 1 2 3 4 5 6 7 8. unfold mbind at 1 3 5 7 9 11 13 15. unfold M_bind.
  destruct (service _ _ _ _) as [res|e].
  - destruct (String.length (firstText res) =? 0)%nat eqn:Hlen.
    + apply length_zero_empty in Hlen. simpl.
      split; [done|]. split; [done|]. split; [done|]. split; [done|].
      intros res' [= <-] Hne. done.
    + assert (Hne : firstText res ≠ EmptyString).
      { intros Heq. apply length_zero_empty in Heq. congruence. }
      simpl. split; [done|]. split; [done|]. split; [done|].
      split; [intros res' [= <-] Heq; done|].
      intros res' [= <-] _. done.
  - simpl. split; [done|]. split; [done|].
    split; [by intros e' [= <-]|]. done.
Qed.

(** X13. [fixSyntax] asks once, with the history of the memory's
    default session (whatever the session of the call), the decode error
    and the rejected value; it writes nothing to memory and changes no
    configuration or array.  What it returns is a trimmed answer that is
    not empty; a blank answer throws [Empty response received]. *)
Theorem fixSyntax_effects (self : AIPrompt) (error value : string)
    (sessionId : option string) (st : state) (c : PromptConfig) :
  configs st !! conf self = Some c →
  let p := history (mem st) None +:+ "
Syntax Error: " +:+ error +:+ "
" +:+ value in
  let r := fixSyntax self error value sessionId st in
  calls (ai r.2) = (calls (ai st) ++ [p])%list
  ∧ mem r.2 = mem st
  ∧ sameObjects st r.2
  ∧ (∀ fixedValue, r.1 = Ok fixedValue →
       fixedValue ≠ EmptyString
       ∧ ∃ res, service (calls (ai st)) p c sessionId = Ok res
                ∧ fixedValue = firstText res)
  ∧ (∀ res, service (calls (ai st)) p c sessionId = Ok res →
       firstText res = EmptyString → r.1 = Thrown "Empty response received").
Proof.
  intros Hc p r. unfold r, fixSyntax.
  erewrite bind_ok by reflexivity. cbv zeta.
  erewrite bind_ok by (unfold readConfig; rewrite Hc; reflexivity).
  fold p. unfold ai_generate, mbind, M_bind.
  destruct (service (calls (ai st)) p c sessionId) as [res|e].
  - destruct (String.length (firstText res) =? 0)%nat eqn:Hlen.
    + apply length_zero_empty in Hlen. simpl.
      split; [done|]. split; [done|]. split; [done|]. split; [done|]. done.
    + assert (Hne : firstText res ≠ EmptyString).
      { intros Heq. apply length_zero_empty in Heq. congruence. }
      simpl. split; [done|]. split; [done|]. split; [done|].
      split; [intros fixed [= <-]; eauto|].
      intros res' [= <-] Heq. done.
  - simpl. split; [done|]. split; [done|]. split; [done|]. split; done.
Qed.

(** *** Decoding *)

Lemma _generateHandler_first_phase (self : AIPrompt) (query : string)
    (sessionId : option string) (st : state) (c : PromptConfig)
    (first : Op (GenerateTextResponse * string)) :
  configs st !! conf self = Some c →
  (noCallables st c ∧ first = _generateDefault self query sessionId)
  ∨ (∃ fl fs, functions c = Some fl ∧ arrays st !! fl = Some fs
              ∧ (0 < length fs)%nat
              ∧ first = _generateWithFunctions self query sessionId) →
  _generateHandler self query sessionId st
  = ('(res, value) ← first;
     repairLoop self (responseConfig c ≫= keyValue) (responseConfig c ≫= schema)
       sessionId res 3 3 0 value) st.
Proof.
  intros Hc Hfirst. unfold _generateHandler.
  erewrite bind_ok by (unfold readConfig; rewrite Hc; reflexivity).
  cbv zeta. destruct Hfirst as [[Hno ->]|(fl & fs & Hfl & Hfs & Hlen & ->)].
  - unfold noCallables in Hno. destruct (functions c) as [l|].
    + erewrite bind_ok.
      2:{ erewrite bind_ok by (unfold readArray; rewrite Hno; reflexivity). reflexivity. }
      reflexivity.
    + erewrite bind_ok by reflexivity. reflexivity.
  - rewrite Hfl. erewrite bind_ok.
    2:{ erewrite bind_ok by (unfold readArray; rewrite Hfs; reflexivity). reflexivity. }
    apply Nat.ltb_lt in Hlen. cbv beta iota. by rewrite Hlen.
Qed.

(** X14. When the value of the first phase decodes, nothing more
    happens: the handler returns the decoded value with the state the
    first phase left, so no parsing error is written to the trace and the
    service is not asked again; and an error of the first phase is the
    handler's error.  This holds for the single completion (no callable
    configured) and for the loop over function calls alike. *)
Theorem _generateHandler_decodes_once (self : AIPrompt) (query : string)
    (sessionId : option string) (st : state) (c : PromptConfig)
    (first : Op (GenerateTextResponse * string)) :
  configs st !! conf self = Some c →
  (noCallables st c ∧ first = _generateDefault self query sessionId)
  ∨ (∃ fl fs, functions c = Some fl ∧ arrays st !! fl = Some fs
              ∧ (0 < length fs)%nat
              ∧ first = _generateWithFunctions self query sessionId) →
  (∀ res value st1 decoded,
     first st = (Ok (res, value), st1) →
     decode (responseConfig c ≫= keyValue) (responseConfig c ≫= schema) value
       = Ok decoded →
     _generateHandler self query sessionId st = (Ok (res, decoded), st1))
  ∧ (∀ e st1, first st = (Thrown e, st1) →
       _generateHandler self query sessionId st = (Thrown e, st1)).
Proof.
  intros Hc Hfirst.
  rewrite (_generateHandler_first_phase self query sessionId st c first Hc Hfirst).
  split.
  - intros res value st1 decoded Hrun Hdecode.
    erewrite bind_ok by exact Hrun. cbn [repairLoop]. by rewrite Hdecode.
  - intros e st1 Hrun. by apply bind_thrown.
Qed.

(** X15. A prompt without key-value decoding and without an output
    schema returns plain text: with no callable configured and a
    completion that is not blank, the handler returns the trimmed text of
    that completion, after exactly one call to the service and with
    exactly one new fragment in memory. *)
Theorem _generateHandler_plain_text (self : AIPrompt) (query : string)
    (sessionId : option string) (st : state) (c : PromptConfig)
    (res : GenerateTextResponse) :
  configs st !! conf self = Some c →
  noCallables st c →
  default false (responseConfig c ≫= keyValue) = false →
  responseConfig c ≫= schema = None →
  completion c query sessionId st = Ok res →
  firstText res ≠ EmptyString →
  let r := _generateHandler self query sessionId st in
  r.1 = Ok (res, DecodedText (firstText res))
  ∧ calls (ai r.2) = (calls (ai st) ++ [prompt query (history (mem st) sessionId)])%list
  ∧ mem r.2 = (mem st ++ [(sessionId,
                           join EmptyString [default EmptyString (queryPrefix c); query;
                                             default EmptyString (responsePrefix c);
                                             firstText res])])%list.
Proof.
  intros Hc Hno Hkv Hschema Hres Hne r.
  destruct (_generateDefault_answered self query sessionId st c res Hc Hres Hne)
    as (st1 & Hdefault & Hcalls & Hmem).
  unfold r.
  rewrite (_generateHandler_first_phase self query sessionId st c
             (_generateDefault self query sessionId) Hc (or_introl (conj Hno eq_refl))).
  erewrite bind_ok by exact Hdefault. cbn [repairLoop].
  unfold decode. rewrite Hkv, Hschema. done.
Qed.

(** X16. [functionsSchema] only reads: it serialises the configured
    functions followed, when an output schema is declared, by the
    synthetic final-result function, and leaves the state, the
    configured array included, exactly as it was. *)
Theorem functionsSchema_reads_only (self : AIPrompt) (st : state) (c : PromptConfig) :
  configs st !! conf self = Some c →
  (∀ fl, functions c = Some fl → is_Some (arrays st !! fl)) →
  functionsSchema self st
  = (Ok (functionsToJSON
           (default [] (functions c ≫= (arrays st !!.))
            ++ match responseConfig c ≫= schema with
               | Some s => [finalResultFunc s]
               | None => []
               end)%list), st).
Proof.
  intros Hc Hlive. unfold functionsSchema.
  erewrite bind_ok by (unfold readConfig; rewrite Hc; reflexivity).
  destruct (functions c) as [fl|]; simpl.
  - destruct (Hlive fl eq_refl) as [fs Hfs].
    erewrite bind_ok by (unfold readArray; rewrite Hfs; reflexivity).
    rewrite Hfs. simpl. destruct (responseConfig c ≫= schema); [done|].
    by rewrite app_nil_r.
  - erewrite bind_ok by reflexivity. simpl.
    by destruct (responseConfig c ≫= schema).
Qed.

(** *** Memory along the loop *)





End Model.

(** *** Concrete inputs *)

(** Decoded values are strings, an output schema carries nothing, a
    configured function is its name. *)
Definition answer (s : string) : @GenerateTextResponse unit :=
  {| results := [ {| text := Some s |} ]; embedModelUsage := None |}.

(** A service whose first answer is malformed and whose later answers
    are well formed. *)
Definition badThenGood : list string → string → @PromptConfig unit → option string
                         → outcome (@GenerateTextResponse unit) :=
  λ earlier _ _ _, match earlier with
                   | [] => Ok (answer "bad")
                   | _ => Ok (answer "good")
                   end.

(** A decoder that accepts [good] only. *)
Definition onlyGood : string → unit → outcome string :=
  λ value _, if String.eqb value "good" then Ok value else Thrown "not an object".

Definition neverMap : string → outcome unit := λ _, Thrown "Expected format is a list of key: value".

Definition namedFinalResult : unit → string := λ _, "finalResult".

(** [processFunction] finding a call of [finalResult] in the text
    [finish], and a call of [search] anywhere else. *)
Definition finishOrSearch : string → list string → @AI unit → option string
                            → outcome FunctionExec * @AI unit :=
  λ value _ a _,
    if String.eqb value "finish"
    then (Ok {| exec_name := "finalResult"; exec_result := Some "42" |}, a)
    else (Ok {| exec_name := "search"; exec_result := Some "nothing" |}, a).

Fixpoint stars (n : nat) : string :=
  match n with
  | 0 => EmptyString
  | S n' => String "*" (stars n')
  end.

(** Services for the loop over function calls: one that answers with
    white space, one that repeats itself, one that never repeats itself,
    one that finishes. *)
Definition blank : list string → string → @PromptConfig unit → option string
                   → outcome (@GenerateTextResponse unit) :=
  λ _ _ _ _, Ok (answer "   ").

Definition stuck : list string → string → @PromptConfig unit → option string
                   → outcome (@GenerateTextResponse unit) :=
  λ _ _ _ _, Ok (answer " search(x) ").

Definition wandering : list string → string → @PromptConfig unit → option string
                       → outcome (@GenerateTextResponse unit) :=
  λ earlier _ _ _, Ok (answer (stars (S (length earlier)))).

Definition finishing : list string → string → @PromptConfig unit → option string
                       → outcome (@GenerateTextResponse unit) :=
  λ _ _ _ _, Ok (answer "finish").

Definition plainConfig : @PromptConfig unit :=
  {| stopSequences := []; queryPrefix := None; responsePrefix := None;
     functions := None;
     responseConfig := Some {| keyValue := None; schema := Some tt |};
     conf_debug := None |}.

Definition callableConfig : @PromptConfig unit :=
  {| stopSequences := []; queryPrefix := None; responsePrefix := None;
     functions := Some 1%positive;
     responseConfig := Some {| keyValue := None; schema := Some tt |};
     conf_debug := None |}.

Definition freshAI : @AI unit := {| calls := []; traces := [] |}.

Definition plainState : @state unit string unit :=
  {| configs := {[ 1%positive := plainConfig ]}; arrays := ∅;
     ai := freshAI; mem := [] |}.

Definition callableState : @state unit string unit :=
  {| configs := {[ 1%positive := callableConfig ]};
     arrays := {[ 1%positive := ["search"] ]};
     ai := freshAI; mem := [] |}.

Definition thePrompt : AIPrompt := {| conf := 1%positive; maxSteps := 20; debug := false |}.

Lemma _generateHandler_never_decodes_the_fix_witness :
  configs plainState !! 1%positive = Some plainConfig
  ∧ noCallables plainState plainConfig
  ∧ onlyGood "bad" tt = Thrown "not an object"
  ∧ onlyGood "good" tt = Ok "good"
  ∧ (_generateHandler badThenGood finishOrSearch namedFinalResult onlyGood neverMap
       thePrompt "question" None plainState).1
    = Thrown "Unable to fix result syntax"
  ∧ calls (ai (_generateHandler badThenGood finishOrSearch namedFinalResult onlyGood
                 neverMap thePrompt "question" None plainState).2)
    = ["question

"; "questionbad
Syntax Error: not an object
bad"].
Proof.
  split; [reflexivity|]. split; [exact I|]. split; [reflexivity|].
  split; [reflexivity|].
  destruct (_generateHandler_never_decodes_the_fix badThenGood finishOrSearch
              namedFinalResult onlyGood neverMap thePrompt "question" None plainState
              (_generateDefault badThenGood thePrompt "question" None plainState).2
              plainConfig (answer "bad") "bad" "not an object"
              eq_refl I eq_refl eq_refl) as (Hrun & _ & _).
  rewrite Hrun. split; reflexivity.
Defined.

Lemma _generateHandler_grows_configured_functions_witness :
  configs callableState !! 1%positive = Some callableConfig
  ∧ functions callableConfig = Some 1%positive
  ∧ arrays callableState !! 1%positive = Some ["search"]
  ∧ (0 < length ["search"])%nat
  ∧ responseConfig callableConfig ≫= schema = Some tt
  ∧ arrays (_generateHandler finishing finishOrSearch namedFinalResult onlyGood neverMap
              thePrompt "question" None callableState).2 !! 1%positive
    = Some ["search"; "finalResult"]
  ∧ arrays (_generateHandler finishing finishOrSearch namedFinalResult onlyGood neverMap
              thePrompt "again" None
              (_generateHandler finishing finishOrSearch namedFinalResult onlyGood
                 neverMap thePrompt "question" None callableState).2).2 !! 1%positive
    = Some ["search"; "finalResult"; "finalResult"].
Proof.
  assert (Hlen : (0 < length ["search"])%nat) by (simpl; lia).
  split; [reflexivity|]. split; [reflexivity|]. split; [reflexivity|].
  split; [exact Hlen|]. split; [reflexivity|].
  destruct (_generateHandler_grows_configured_functions finishing finishOrSearch
              namedFinalResult onlyGood neverMap thePrompt callableState callableConfig
              1%positive ["search"] tt "question" "again" None None
              eq_refl eq_refl eq_refl Hlen eq_refl) as (Hone & Htwo & _).
  split; [exact Hone|exact Htwo].
Defined.

Lemma steps_terminal_conditions_witness :
  (steps blank finishOrSearch thePrompt callableConfig 1%positive "question" None
     20 None callableState).1 = Thrown "Empty response received"
  ∧ (steps stuck finishOrSearch thePrompt callableConfig 1%positive "question" None
       20 None callableState).1 = Thrown "Duplicate response received"
  ∧ (steps wandering finishOrSearch thePrompt callableConfig 1%positive "question" None
       20 None callableState).1 = Thrown "max 20 steps allowed"
  ∧ (steps finishing finishOrSearch thePrompt callableConfig 1%positive "question" None
       20 None callableState).1 = Ok (answer "finish", "42").
Proof.
  split.
  { destruct (steps_terminal_conditions blank finishOrSearch namedFinalResult thePrompt
                callableConfig 1%positive "question" None) as (Hempty & _).
    rewrite (Hempty 19 None callableState (answer "   ") eq_refl eq_refl).
    reflexivity. }
  split.
  { destruct (steps_terminal_conditions stuck finishOrSearch namedFinalResult thePrompt
                callableConfig 1%positive "question" None) as (_ & Hduplicate & _).
    rewrite (Hduplicate 18 None callableState "search(x)"
               (step stuck finishOrSearch thePrompt callableConfig 1%positive
                  "question" None None callableState).2
               (answer " search(x) ") eq_refl eq_refl eq_refl).
    reflexivity. }
  split.
  { destruct (steps_terminal_conditions wandering finishOrSearch namedFinalResult
                thePrompt callableConfig 1%positive "question" None)
      as (_ & _ & _ & _ & Hbudget & _).
    pose (final := default (None, callableState)
                     (continuing wandering finishOrSearch thePrompt callableConfig
                        1%positive "question" None 20 None callableState)).
    assert (Hcontinuing :
      continuing wandering finishOrSearch thePrompt callableConfig 1%positive
        "question" None (maxSteps thePrompt) None callableState
      = Some (final.1, final.2)).
    { vm_compute. reflexivity. }
    change 20 with (maxSteps thePrompt) at 1.
    rewrite (Hbudget eq_refl final.1 callableState final.2 Hcontinuing).
    reflexivity. }
  destruct (steps_terminal_conditions finishing finishOrSearch namedFinalResult
              thePrompt callableConfig 1%positive "question" None)
    as (_ & _ & _ & _ & _ & Hfinal & _).
  destruct (Hfinal 19 None callableState (answer "finish") ["search"]
              {| exec_name := "finalResult"; exec_result := Some "42" |}
              (ai (afterCompletion "question" None (answer "finish") callableState))
              eq_refl eq_refl) as (st' & Hrun).
  - vm_compute. discriminate.
  - reflexivity.
  - reflexivity.
  - reflexivity.
  - rewrite Hrun. reflexivity.
Defined.

(** *** Further concrete inputs *)

(** A prompt that asks for plain text. *)
Definition textConfig : @PromptConfig unit :=
  {| stopSequences := []; queryPrefix := Some "Q: "; responsePrefix := Some "A: ";
     functions := None; responseConfig := None; conf_debug := None |}.

Definition textState : @state unit string unit :=
  {| configs := {[ 1%positive := textConfig ]}; arrays := ∅;
     ai := freshAI; mem := [] |}.

Definition hello : list string → string → @PromptConfig unit → option string
                   → outcome (@GenerateTextResponse unit) :=
  λ _ _ _ _, Ok (answer " hello ").

Lemma _generateDefault_outcomes_witness :
  configs textState !! 1%positive = Some textConfig
  ∧ completion hello textConfig "greet" None textState = Ok (answer " hello ")
  ∧ (_generateDefault hello thePrompt "greet" None textState).1
    = Ok (answer " hello ", "hello")
  ∧ mem (_generateDefault hello thePrompt "greet" None textState).2
    = [(None, "Q: greetA: hello")].
Proof.
  split; [reflexivity|]. split; [reflexivity|].
  destruct (_generateDefault_outcomes hello thePrompt "greet" None textState textConfig
              eq_refl) as (_ & _ & _ & _ & Hok).
  destruct (Hok (answer " hello ") eq_refl) as [Hvalue Hmem].
  - vm_compute. discriminate.
  - rewrite Hvalue, Hmem. split; reflexivity.
Defined.

Lemma fixSyntax_effects_witness :
  configs plainState !! 1%positive = Some plainConfig
  ∧ mem (fixSyntax blank thePrompt "not an object" "bad" (Some "s1") plainState).2
    = mem plainState
  ∧ (fixSyntax blank thePrompt "not an object" "bad" (Some "s1") plainState).1
    = Thrown "Empty response received".
Proof.
  split; [reflexivity|].
  destruct (fixSyntax_effects blank thePrompt "not an object" "bad" (Some "s1")
              plainState plainConfig eq_refl) as (_ & Hmem & _ & _ & Hempty).
  split; [exact Hmem|].
  exact (Hempty (answer "   ") eq_refl eq_refl).
Defined.

Lemma _generateHandler_decodes_once_witness :
  configs plainState !! 1%positive = Some plainConfig
  ∧ noCallables plainState plainConfig
  ∧ onlyGood "good" tt = Ok "good"
  ∧ (_generateHandler (λ _ _ _ _, Ok (answer "good")) finishOrSearch namedFinalResult
       onlyGood neverMap thePrompt "question" None plainState).1
    = Ok (answer "good", DecodedObject "good").
Proof.
  split; [reflexivity|]. split; [exact I|]. split; [reflexivity|].
  destruct (_generateHandler_decodes_once (λ _ _ _ _, Ok (answer "good")) finishOrSearch
              namedFinalResult onlyGood neverMap thePrompt "question" None plainState
              plainConfig
              (_generateDefault (λ _ _ _ _, Ok (answer "good")) thePrompt "question" None)
              eq_refl (or_introl (conj I eq_refl))) as [Hdecoded _].
  rewrite (Hdecoded (answer "good") "good"
             (_generateDefault (λ _ _ _ _, Ok (answer "good")) thePrompt "question" None
                plainState).2
             (DecodedObject "good") eq_refl eq_refl).
  reflexivity.
Defined.

Lemma _generateHandler_plain_text_witness :
  configs textState !! 1%positive = Some textConfig
  ∧ noCallables textState textConfig
  ∧ completion hello textConfig "greet" None textState = Ok (answer " hello ")
  ∧ (_generateHandler (T := string) (KeyValues := unit) hello finishOrSearch
       namedFinalResult onlyGood neverMap thePrompt "greet" None textState).1
    = Ok (answer " hello ", DecodedText "hello")
  ∧ length (mem (_generateHandler (T := string) (KeyValues := unit) hello finishOrSearch
                   namedFinalResult onlyGood neverMap thePrompt "greet" None
                   textState).2) = 1.
Proof.
  split; [reflexivity|]. split; [exact I|]. split; [reflexivity|].
  destruct (_generateHandler_plain_text hello finishOrSearch namedFinalResult onlyGood
              neverMap thePrompt "greet" None textState textConfig (answer " hello ")
              eq_refl I eq_refl eq_refl eq_refl) as (Hvalue & _ & Hmem).
  - vm_compute. discriminate.
  - rewrite Hvalue, Hmem. split; reflexivity.
Defined.

Lemma functionsSchema_reads_only_witness :
  configs callableState !! 1%positive = Some callableConfig
  ∧ arrays callableState !! 1%positive = Some ["search"]
  ∧ functionsSchema namedFinalResult (join ",") thePrompt callableState
    = (Ok "search,finalResult", callableState).
Proof.
  split; [reflexivity|]. split; [reflexivity|].
  rewrite (functionsSchema_reads_only namedFinalResult (join ",") thePrompt
             callableState callableConfig eq_refl).
  - reflexivity.
  - intros fl [= <-]. by eexists.
Defined.


End Text.
